(** * sfdx-core [Crypto]: encryption of auth secrets with a keychain-held key

    A shallow embedding of [src/lib/crypto.js]: the class [Crypto]
    ([constructor], [encrypt], [decrypt], [close], [init], [getKeyChain]),
    the [keychainPromises] wrapper and the module constants, together with
    what the class relies on:

    - Node's [Buffer] encodings ([hex], [utf8]) and [String.prototype.split]
      and [substring], as functions on [string] and [list byte];
    - Node's ['aes-256-gcm'] cipher, first as an interface with the laws the
      proofs use ([Aes256Gcm]), then as the algorithm itself (FIPS 197 and
      NIST SP 800-38D), which is shown to satisfy the interface;
    - the key cell [SecureBuffer] and the [Logger], whose sources are not
      part of the excerpt and which are modelled from the specification;
    - the keychain, the random source and the host, as explicit state.

    A JavaScript string is modelled by a [string] holding its UTF-8
    encoding: [Buffer.from(s, 'utf8')] is the list of the characters of
    [s], and [buf.toString('utf8')] is the identity on well-formed UTF-8
    and replaces what is ill formed.  JavaScript counts the length of a
    string and the positions in it in UTF-16 code units; [js_length] and
    [js_substring] count them on the encoding.

    A method that can throw returns a [Completion]; a method that awaits is
    run to its end, and [init], which calls itself, takes fuel.  The debug
    lines written to the logger are left out. *)

From Stdlib Require Import List String Ascii NArith Bool Arith Lia.
From Stdlib Require Import Strings.Byte DecimalString.
Import ListNotations.

Local Open Scope string_scope.
Set Warnings "-register-all".

(** ** Bytes and encodings *)

Definition in_range (lo hi : N) (b : byte) : bool :=
  (N.leb lo (Byte.to_N b) && N.leb (Byte.to_N b) hi)%bool.

(** *** [buf.toString('hex')] and [Buffer.from(s, 'hex')] *)

Definition hex_digit (n : N) : ascii :=
  if N.ltb n 10 then ascii_of_N (48 + n) else ascii_of_N (87 + n).

Definition hex_of_byte (b : byte) : string :=
  String (hex_digit (N.div (Byte.to_N b) 16))
    (String (hex_digit (N.modulo (Byte.to_N b) 16)) EmptyString).

Fixpoint toString_hex (buf : list byte) : string :=
  match buf with
  | [] => EmptyString
  | b :: rest => hex_of_byte b ++ toString_hex rest
  end.

(** Value of a hexadecimal digit, in either case; [None] for any other
    character (Node's [unhex] table). *)
Definition unhex (c : ascii) : option N :=
  let n := N_of_ascii c in
  if (N.leb 48 n && N.leb n 57)%bool then Some (n - 48)%N
  else if (N.leb 97 n && N.leb n 102)%bool then Some (n - 87)%N
  else if (N.leb 65 n && N.leb n 70)%bool then Some (n - 55)%N
  else None.

(** Node decodes pairs of digits from the left and stops at the first pair
    that is not hexadecimal; a trailing single character is ignored. *)
Fixpoint Buffer_from_hex (s : string) : list byte :=
  match s with
  | String a (String b rest) =>
      match unhex a, unhex b with
      | Some hi, Some lo =>
          match Byte.of_N (16 * hi + lo) with
          | Some x => x :: Buffer_from_hex rest
          | None => []
          end
      | _, _ => []
      end
  | _ => []
  end.

Definition is_hex_digit (c : ascii) : bool :=
  let n := N_of_ascii c in
  ((N.leb 48 n && N.leb n 57) || (N.leb 97 n && N.leb n 102))%bool.

Definition is_ascii (c : ascii) : bool := N.ltb (N_of_ascii c) 128.

Fixpoint all_chars (p : ascii -> bool) (s : string) : bool :=
  match s with
  | EmptyString => true
  | String c rest => (p c && all_chars p rest)%bool
  end.

(** *** [Buffer.from(s, 'utf8')] and [buf.toString('utf8')] *)

Definition Buffer_from_utf8 (s : string) : list byte := list_byte_of_string s.

(** U+FFFD, the replacement character, in UTF-8. *)
Definition replacement : list byte := [xef; xbf; xbd].

Definition continuation (b : byte) : bool := in_range 128 191 b.

(** Range of the second byte of a three- or four-byte sequence, by lead
    byte (Unicode, table 3-7): no overlong forms, no surrogates, nothing
    above U+10FFFF. *)
Definition second_ok (lead b : byte) : bool :=
  match lead with
  | xe0 => in_range 160 191 b
  | xed => in_range 128 159 b
  | xf0 => in_range 144 191 b
  | xf4 => in_range 128 143 b
  | _ => continuation b
  end.

(** The decoder copies well-formed sequences and replaces every maximal
    ill-formed part by U+FFFD. *)
Fixpoint utf8_scrub (bs : list byte) : list byte :=
  match bs with
  | [] => []
  | b0 :: r0 =>
      if in_range 0 127 b0 then b0 :: utf8_scrub r0
      else if in_range 194 223 b0 then
        match r0 with
        | b1 :: r1 =>
            if continuation b1 then b0 :: b1 :: utf8_scrub r1
            else replacement ++ utf8_scrub r0
        | [] => replacement
        end
      else if in_range 224 239 b0 then
        match r0 with
        | b1 :: r1 =>
            if second_ok b0 b1 then
              match r1 with
              | b2 :: r2 =>
                  if continuation b2 then b0 :: b1 :: b2 :: utf8_scrub r2
                  else replacement ++ utf8_scrub r1
              | [] => replacement
              end
            else replacement ++ utf8_scrub r0
        | [] => replacement
        end
      else if in_range 240 244 b0 then
        match r0 with
        | b1 :: r1 =>
            if second_ok b0 b1 then
              match r1 with
              | b2 :: r2 =>
                  if continuation b2 then
                    match r2 with
                    | b3 :: r3 =>
                        if continuation b3
                        then b0 :: b1 :: b2 :: b3 :: utf8_scrub r3
                        else replacement ++ utf8_scrub r2
                    | [] => replacement
                    end
                  else replacement ++ utf8_scrub r1
              | [] => replacement
              end
            else replacement ++ utf8_scrub r0
        | [] => replacement
        end
      else replacement ++ utf8_scrub r0
  end%list.

Definition toString_utf8 (buf : list byte) : string :=
  string_of_list_byte (utf8_scrub buf).

(** Well-formed UTF-8: a concatenation of the sequences of table 3-7. *)
Inductive utf8_valid : list byte -> Prop :=
| utf8_nil : utf8_valid []
| utf8_one b r :
    in_range 0 127 b = true -> utf8_valid r -> utf8_valid (b :: r)
| utf8_two b0 b1 r :
    in_range 194 223 b0 = true -> continuation b1 = true ->
    utf8_valid r -> utf8_valid (b0 :: b1 :: r)
| utf8_three b0 b1 b2 r :
    in_range 224 239 b0 = true -> second_ok b0 b1 = true ->
    continuation b2 = true ->
    utf8_valid r -> utf8_valid (b0 :: b1 :: b2 :: r)
| utf8_four b0 b1 b2 b3 r :
    in_range 240 244 b0 = true -> second_ok b0 b1 = true ->
    continuation b2 = true -> continuation b3 = true ->
    utf8_valid r -> utf8_valid (b0 :: b1 :: b2 :: b3 :: r).

(** A JavaScript string that survives the trip through UTF-8. *)
Definition well_formed (s : string) : Prop :=
  utf8_valid (Buffer_from_utf8 s).

(** One bit of a character, and of one character of a string, inverted. *)
Definition flip_bit (k : N) (c : ascii) : ascii :=
  ascii_of_N (N.lxor (N_of_ascii c) (N.shiftl 1 k)).

Fixpoint flip_at (i : nat) (k : N) (s : string) : string :=
  match s, i with
  | EmptyString, _ => EmptyString
  | String c rest, O => String (flip_bit k c) rest
  | String c rest, S i' => String c (flip_at i' k rest)
  end.

(** *** [String.prototype.split] and [substring] *)

(** [s.split(sep)] for a separator of one character. *)
Fixpoint split (sep : ascii) (s : string) : list string :=
  match s with
  | EmptyString => [EmptyString]
  | String c rest =>
      if Ascii.eqb c sep then EmptyString :: split sep rest
      else match split sep rest with
           | tok :: toks => String c tok :: toks
           | [] => [String c EmptyString]
           end
  end.

Definition not_char (sep c : ascii) : bool := negb (Ascii.eqb c sep).

(** How often a character occurs in a string; [split] gives one segment
    more. *)
Fixpoint occurrences (sep : ascii) (s : string) : nat :=
  match s with
  | EmptyString => 0
  | String c rest =>
      (if Ascii.eqb c sep then 1 else 0) + occurrences sep rest
  end.

(** *** Lengths and positions

    [s.length] and the indices of [s.substring] count UTF-16 code units.
    In the UTF-8 encoding a character of one, two or three bytes is one
    unit and a character of four bytes is two, a surrogate pair.
    [utf8_size c] is the number of bytes of the character that the byte
    [c] starts. *)
Definition utf8_size (c : ascii) : nat :=
  let n := N_of_ascii c in
  if N.ltb n 192 then 1
  else if N.ltb n 224 then 2
  else if N.ltb n 240 then 3
  else 4.

Definition utf16_units (c : ascii) : nat :=
  if N.ltb (N_of_ascii c) 240 then 1 else 2.

(** The units of a string of which the first [skip] bytes belong to a
    character that has been counted. *)
Fixpoint js_length_from (skip : nat) (s : string) : nat :=
  match s with
  | EmptyString => 0
  | String c rest =>
      match skip with
      | S k => js_length_from k rest
      | O => utf16_units c + js_length_from (utf8_size c - 1) rest
      end
  end.

(** [s.length] *)
Definition js_length (s : string) : nat := js_length_from 0 s.

(** U+FFFD as a string. *)
Definition replacement_character : string := string_of_list_byte replacement.

Definition inside (lo hi p : nat) : bool := (Nat.leb lo p && Nat.ltb p hi)%bool.

(** The characters whose units are at the positions from [lo] up to, and
    without, [hi].  [pos] is the position of the next character, [skip]
    the number of bytes still to come of the character under way and
    [keep] whether that character is taken.  A slice that ends or starts
    between the two units of a surrogate pair holds one surrogate alone;
    every use the class makes of such a string (its UTF-8 encoding, its
    length, its hexadecimal digits) reads it as it reads U+FFFD, which
    stands for it here. *)
Fixpoint js_slice (lo hi pos skip : nat) (keep : bool) (s : string) : string :=
  match s with
  | EmptyString => EmptyString
  | String c rest =>
      match skip with
      | S k =>
          if keep then String c (js_slice lo hi pos k keep rest)
          else js_slice lo hi pos k keep rest
      | O =>
          if Nat.eqb (utf16_units c) 1 then
            if inside lo hi pos
            then String c (js_slice lo hi (S pos) (utf8_size c - 1) true rest)
            else js_slice lo hi (S pos) (utf8_size c - 1) false rest
          else
            match inside lo hi pos, inside lo hi (S pos) with
            | true, true =>
                String c
                  (js_slice lo hi (S (S pos)) (utf8_size c - 1) true rest)
            | false, false =>
                js_slice lo hi (S (S pos)) (utf8_size c - 1) false rest
            | _, _ =>
                replacement_character
                  ++ js_slice lo hi (S (S pos)) (utf8_size c - 1) false rest
            end
      end
  end.

(** [s.substring(from, to)]: the indices are swapped when out of order;
    an index beyond the end is as good as the length. *)
Definition js_substring (from to : nat) (s : string) : string :=
  js_slice (Nat.min from to) (Nat.max from to) 0 0 false s.

(** The message of the error the builtin [crypto] throws at a string of
    odd length that is to be read as hexadecimal. *)
Definition invalid_hex_length (n : nat) : string :=
  "The argument 'encoding' is invalid for data of length "
    ++ NilZero.string_of_uint (Nat.to_uint n) ++ ". Received 'hex'".

(** ** Values, messages and exceptions *)

(** What [encrypt] and [decrypt] take and return. *)
Inductive JsValue : Type :=
| undefined
| null
| Str (s : string).

(** Modelled from the spec: the lookup of localized messages
    ([./messages], not part of the excerpt).  A message is what a bundle
    holds under a key, with tokens substituted into it; the texts
    themselves are data outside the module, so a message is identified by
    bundle, key and tokens.  [Plain] is a text that is not looked up, such
    as the message of an error thrown by a builtin. *)
Inductive Message : Type :=
| Plain (text : string)
| Localized (bundle key : string) (tokens : list Message).

(** [Messages.loadMessages(packageName, bundleName)]. *)
Record Messages : Type := loadMessages
  { packageName : string; bundleName : string }.

Definition getMessage (m : Messages) (key : string) (tokens : list Message)
  : Message :=
  Localized (bundleName m) key tokens.

(** Modelled from the spec: the errors of [./sfdxError] (not part of the
    excerpt) and of the libraries.  What can be thrown is told apart by
    where it comes from:
    - [SfdxError message name actions] is [new SfdxError(message, name,
      actions)];
    - [SfdxError_wrap message actions] is [SfdxError.wrap(e)] for an error
      [e] of a builtin, with the message and the actions assigned to [e]
      before it is wrapped: the failure stays the same error with its
      cause wrapped and a hint attached;
    - [NodeError message] is an [Error] thrown by the builtin [crypto];
    - [TypeError] is a property read on [null] or [undefined];
    - [NoKeyLoaded] is the failure of the key cell when it is empty;
    - [KeychainError name message] is the [err] a keychain hands to its
      callback;
    - [UnexpectedValueTypeError] is the failure of [ensure(undefined)]. *)
Inductive Exception : Type :=
| SfdxError (message : Message) (name : string) (actions : list Message)
| SfdxError_wrap (message : Message) (actions : option Message)
| NodeError (message : string)
| TypeError
| NoKeyLoaded
| KeychainError (name message : string)
| UnexpectedValueTypeError.

(** [err.name]. *)
Definition error_name (e : Exception) : string :=
  match e with
  | SfdxError _ name _ => name
  | SfdxError_wrap _ _ => "Error"
  | NodeError _ => "Error"
  | TypeError => "TypeError"
  | NoKeyLoaded => "NoKeyLoaded"
  | KeychainError name _ => name
  | UnexpectedValueTypeError => "UnexpectedValueTypeError"
  end.

Inductive Completion (A : Type) : Type :=
| Return (a : A)
| Throw (e : Exception).
Arguments Return {A} a.
Arguments Throw {A} e.

(** ** The key cell *)

(** Modelled from the spec: [SecureBuffer] ([src/lib/secureBuffer], imported
    by the module but absent from the excerpt).  The cell wraps at most one
    key; [consume] stores the bytes, the last write winning; [value] fails
    with [NoKeyLoaded] on an empty cell and otherwise calls the function
    once on the bytes and returns its result; [clear] empties the cell and
    is idempotent. *)
Module SecureBuffer.

Inductive t : Type :=
| Empty
| Populated (bytes : list byte).

Definition consume (buffer : list byte) (cell : t) : t := Populated buffer.

Definition value {A : Type} (cell : t) (cb : list byte -> Completion A)
  : Completion A :=
  match cell with
  | Empty => Throw NoKeyLoaded
  | Populated bytes => cb bytes
  end.

Definition clear (cell : t) : t := Empty.

End SecureBuffer.

(** ** The credential store and the random source *)

Inductive Call : Type :=
| GetPassword (service account : string)
| SetPassword (service account password : string).

(** A keychain is an object with state of its own.  What it answers is a
    function of the calls it has received so far (oldest first), which is
    all the module can observe of that state.  The arguments of the
    callback are [(err, password)] for [getPassword] and [(err)] for
    [setPassword]; the keychain passes a password whenever [err] is
    absent. *)
Record Keychain : Type := {
  kc_getPassword : list Call -> string -> string -> Exception + string;
  kc_setPassword : list Call -> string -> string -> string -> option Exception
}.

(** The calls made to the keychain so far, and the stream from which
    [crypto.randomBytes] draws. *)
Record World : Type := {
  calls : list Call;
  entropy : nat -> byte;
  drawn : nat
}.

Definition randomBytes (n : nat) (w : World) : list byte * World :=
  (map (entropy w) (seq (drawn w) n),
   {| calls := calls w; entropy := entropy w; drawn := drawn w + n |}).

Definition record_call (c : Call) (w : World) : World :=
  {| calls := calls w ++ [c]; entropy := entropy w; drawn := drawn w |}.

(** What the module reads from its surroundings: [os.platform()],
    [env.getBoolean] and [retrieveKeychain] of [./keyChain]. *)
Record Host : Type := {
  os_platform : string;
  env_getBoolean : string -> bool;
  retrieveKeychain : string -> Exception + Keychain
}.

(** ** The logger *)

(** Modelled from the spec: [Logger] ([./logger], imported by the module
    but absent from the excerpt; the spec counts structured logging among
    the external collaborators).  [init] first awaits
    [Logger.child('crypto')] and then writes debug lines to the logger it
    was given, which the class cannot observe.  [Logger_child name] is
    [Some err] when the promise is rejected with [err], and [None] when
    it resolves to a logger. *)
Class Logger : Type := {
  Logger_child : string -> option Exception
}.

(** A logger that can be had.  It is the logger of every statement that
    does not name another. *)
#[global] Instance logger_ready : Logger := {| Logger_child _ := None |}.

(** ** Module constants *)

Definition TAG_DELIMITER : ascii := ":"%char.
Definition BYTE_COUNT_FOR_IV : nat := 6.
Definition KEY_NAME : string := "sfdx".
Definition ACCOUNT : string := "local".

(** ** [keychainPromises] *)

Module keychainPromises.

Definition getPassword (_keychain : Keychain) (service account : string)
    (w : World) : Completion (string * string) * World :=
  let w' := record_call (GetPassword service account) w in
  match kc_getPassword _keychain (calls w) service account with
  | inl err => (Throw err, w')
  | inr password => (Return (account, password), w')
  end.

Definition setPassword (_keychain : Keychain)
    (service account password : string) (w : World)
  : Completion (string * string) * World :=
  let w' := record_call (SetPassword service account password) w in
  match kc_setPassword _keychain (calls w) service account password with
  | Some err => (Throw err, w')
  | None => (Return (account, password), w')
  end.

End keychainPromises.

(** ** The cipher *)

(** Node's ['aes-256-gcm'] as the module uses it.  [createCipheriv key iv]
    is the check made by both [crypto.createCipheriv] and
    [crypto.createDecipheriv]: [Some m] when they throw an error with
    message [m].  [cipher_run] is [update], [final] and [getAuthTag] of a
    cipher; [decipher_run] is [setAuthTag], [update] and [final] of a
    decipher on the bytes of the tag and of the ciphertext, which returns
    the text only when the tag is accepted; [setAuthTag] is the check
    [decipher.setAuthTag] makes on its own: [Some m] when it throws an
    error with message [m]. *)
Class Aes256Gcm : Type := {
  createCipheriv : list byte -> list byte -> option string;
  cipher_run : list byte -> list byte -> list byte -> list byte * list byte;
  setAuthTag : list byte -> option string;
  decipher_run :
    list byte -> list byte -> list byte -> list byte -> string + list byte;

  (** A tag that [setAuthTag] refuses ends the run with that error. *)
  setAuthTag_refuses : forall key iv tag secret m,
    setAuthTag tag = Some m ->
    decipher_run key iv tag secret = inl m;

  (** A key of 32 bytes and a nonce of 12 bytes are accepted. *)
  createCipheriv_ok : forall key iv,
    List.length key = 32 -> List.length iv = 12 ->
    createCipheriv key iv = None;

  (** What was sealed opens, under the same key and nonce. *)
  decipher_cipher : forall key iv text secret tag,
    createCipheriv key iv = None ->
    cipher_run key iv text = (secret, tag) ->
    decipher_run key iv tag secret = inr text;

  (** A ciphertext has one plaintext. *)
  cipher_injective : forall key iv text text',
    createCipheriv key iv = None ->
    fst (cipher_run key iv text) = fst (cipher_run key iv text') ->
    text = text';

  (** What opens was sealed: the text returned encrypts to the given
      ciphertext, and the tag given is the tag of that encryption or a
      truncation of it. *)
  decipher_sound : forall key iv tag secret text,
    createCipheriv key iv = None ->
    decipher_run key iv tag secret = inr text ->
    exists tag',
      cipher_run key iv text = (secret, tag') /\
      firstn (List.length tag) tag' = tag
}.

(** ** Class [Crypto] *)

(** The options object handed to the constructor. *)
Module Options.

Record t : Type := {
  platform : option string;
  keychain : option Keychain;
  noResetOnClose : bool;
  retryStatus : option string
}.

(** [{}] *)
Definition empty : t :=
  {| platform := None; keychain := None;
     noResetOnClose := false; retryStatus := None |}.

Definition set_platform (p : string) (o : t) : t :=
  {| platform := Some p; keychain := keychain o;
     noResetOnClose := noResetOnClose o; retryStatus := retryStatus o |}.

Definition set_keychain (k : Keychain) (o : t) : t :=
  {| platform := platform o; keychain := Some k;
     noResetOnClose := noResetOnClose o; retryStatus := retryStatus o |}.

End Options.

(** The fields of an instance.  [_key] holds a reference to a key cell, or
    nothing; [messages] and [noResetOnClose] are [undefined] until [init]
    assigns them. *)
Record Crypto : Type := {
  _key : option SecureBuffer.t;
  options : Options.t;
  messages : option Messages;
  noResetOnClose : option bool
}.

Definition with_key (cell : SecureBuffer.t) (this : Crypto) : Crypto :=
  {| _key := Some cell; options := options this;
     messages := messages this; noResetOnClose := noResetOnClose this |}.

Definition with_options (o : Options.t) (this : Crypto) : Crypto :=
  {| _key := _key this; options := o;
     messages := messages this; noResetOnClose := noResetOnClose this |}.

Definition with_messages (m : Messages) (this : Crypto) : Crypto :=
  {| _key := _key this; options := options this;
     messages := Some m; noResetOnClose := noResetOnClose this |}.

Definition with_noResetOnClose (b : bool) (this : Crypto) : Crypto :=
  {| _key := _key this; options := options this;
     messages := messages this; noResetOnClose := Some b |}.

(** [this.messages.getMessage(key, tokens)] *)
Definition this_getMessage (this : Crypto) (key : string)
    (tokens : list Message) : Completion Message :=
  match messages this with
  | None => Throw TypeError
  | Some m => Return (getMessage m key tokens)
  end.

(** A string used as a condition: [undefined] and [''] are falsy. *)
Definition truthy_string (s : option string) : bool :=
  match s with
  | None => false
  | Some s => negb (String.eqb s EmptyString)
  end.

(** A field that is [undefined] or a boolean, used as a condition. *)
Definition truthy_bool (b : option bool) : bool :=
  match b with
  | None => false
  | Some b => b
  end.

(** [constructor(options)] *)
Definition constructor (opts : option Options.t) : Crypto :=
  {| _key := Some SecureBuffer.Empty;
     options := match opts with Some o => o | None => Options.empty end;
     messages := None;
     noResetOnClose := None |}.

(** [close()] *)
Definition close (this : Crypto) : Completion unit * Crypto :=
  if negb (truthy_bool (noResetOnClose this)) then
    match _key this with
    | None => (Throw TypeError, this)
    | Some cell => (Return tt, with_key (SecureBuffer.clear cell) this)
    end
  else (Return tt, this).

(** [getKeyChain(platform)] *)
Definition getKeyChain (host : Host) (platform : string) (this : Crypto)
  : Completion Keychain * Crypto :=
  match Options.keychain (options this) with
  | Some k => (Return k, this)
  | None =>
      match retrieveKeychain host platform with
      | inl err => (Throw err, this)
      | inr k => (Return k, with_options (Options.set_keychain k (options this)) this)
      end
  end.

Section WithCipher.

Context {suite : Aes256Gcm}.

(** A string key or nonce handed to the cipher is encoded as UTF-8. *)
Definition cipher_key (buffer : list byte) : list byte :=
  Buffer_from_utf8 (toString_utf8 buffer).

(** The function [encrypt] hands to the key cell. *)
Definition encrypt_callback (text iv : string) (buffer : list byte)
  : Completion JsValue :=
  match createCipheriv (cipher_key buffer) (Buffer_from_utf8 iv) with
  | Some m => Throw (NodeError m)
  | None =>
      let (encrypted, tag) :=
        cipher_run (cipher_key buffer) (Buffer_from_utf8 iv)
          (Buffer_from_utf8 text) in
      Return (Str (iv ++ toString_hex encrypted
                     ++ String TAG_DELIMITER (toString_hex tag)))
  end.

(** [encrypt(text)] *)
Definition encrypt (this : Crypto) (text : JsValue) (w : World)
  : Completion JsValue * World :=
  match text with
  | undefined | null => (Return undefined, w)
  | Str text =>
      match _key this with
      | None =>
          match this_getMessage this "KeychainPasswordCreationError" [] with
          | Throw e => (Throw e, w)
          | Return errMsg =>
              (Throw (SfdxError errMsg "KeychainPasswordCreationError" []), w)
          end
      | Some cell =>
          let (bytes, w') := randomBytes BYTE_COUNT_FOR_IV w in
          let iv := toString_hex bytes in
          (SecureBuffer.value cell (encrypt_callback text iv), w')
      end
  end.

(** The [try] block of [decrypt]: the text, or the message of the error
    that was thrown.  [setAuthTag] is given the bytes [Buffer.from] reads
    from the tag; [update] then refuses a ciphertext with an odd number
    of characters, and reads an even one as [Buffer.from] does. *)
Definition decrypt_try (tag iv secret : string) (buffer : list byte)
  : string + list byte :=
  match setAuthTag (Buffer_from_hex tag) with
  | Some m => inl m
  | None =>
      if Nat.odd (js_length secret)
      then inl (invalid_hex_length (js_length secret))
      else decipher_run (cipher_key buffer) (Buffer_from_utf8 iv)
             (Buffer_from_hex tag) (Buffer_from_hex secret)
  end.

(** The function [decrypt] hands to the key cell; the [catch] block is
    the branch on a failure of the [try] block. *)
Definition decrypt_callback (host : Host) (this : Crypto)
    (tag iv secret : string) (buffer : list byte) : Completion JsValue :=
  match createCipheriv (cipher_key buffer) (Buffer_from_utf8 iv) with
  | Some m => Throw (NodeError m)
  | None =>
      match decrypt_try tag iv secret buffer with
      | inr dec => Return (Str (toString_utf8 dec))
      | inl e_message =>
          let useGenericUnixKeychain :=
            (env_getBoolean host "SFDX_USE_GENERIC_UNIX_KEYCHAIN"
             || env_getBoolean host "USE_GENERIC_UNIX_KEYCHAIN")%bool in
          let e_actions :=
            if (String.eqb (os_platform host) "darwin"
                && negb useGenericUnixKeychain)%bool
            then Some (getMessage (loadMessages "@salesforce/core" "crypto")
                         "MacKeychainOutOfSync" [])
            else None in
          match this_getMessage this "AuthDecryptError" [Plain e_message] with
          | Throw e => Throw e
          | Return msg => Throw (SfdxError_wrap msg e_actions)
          end
      end
  end.

(** [decrypt(text)] *)
Definition decrypt (host : Host) (this : Crypto) (text : JsValue)
  : Completion JsValue :=
  match text with
  | undefined | null => Return undefined
  | Str text =>
      let tokens := split TAG_DELIMITER text in
      if negb (Nat.eqb (List.length tokens) 2) then
        match this_getMessage this "InvalidEncryptedFormatError" [] with
        | Throw e => Throw e
        | Return errMsg =>
            match this_getMessage this "InvalidEncryptedFormatErrorAction" [] with
            | Throw e => Throw e
            | Return actionMsg =>
                Throw (SfdxError errMsg "InvalidEncryptedFormatError"
                         [actionMsg])
            end
        end
      else
        let tag := nth 1 tokens EmptyString in
        let iv :=
          js_substring 0 (BYTE_COUNT_FOR_IV * 2) (nth 0 tokens EmptyString) in
        let secret :=
          js_substring (BYTE_COUNT_FOR_IV * 2)
            (js_length (nth 0 tokens EmptyString))
            (nth 0 tokens EmptyString) in
        match _key this with
        | None => Throw TypeError
        | Some cell =>
            SecureBuffer.value cell (decrypt_callback host this tag iv secret)
        end
  end.

End WithCipher.

(** The assignments [init] makes between the logger and its [try]
    block: the platform defaults to the host's, the message bundle is
    loaded and [noResetOnClose] is read from the options. *)
Definition init_fields (host : Host) (this : Crypto) : Crypto :=
  let this :=
    if negb (truthy_string (Options.platform (options this)))
    then with_options (Options.set_platform (os_platform host) (options this)) this
    else this in
  let this := with_messages (loadMessages "@salesforce/core" "encryption") this in
  with_noResetOnClose (Options.noResetOnClose (options this)) this.

Definition this_options_platform (this : Crypto) : string :=
  match Options.platform (options this) with
  | Some p => p
  | None => EmptyString
  end.

(** The [try] block of [init].  The method [consume] is looked up on
    [this._key] before the arguments of the call are evaluated. *)
Definition init_try (host : Host) (this : Crypto) (w : World)
  : Completion unit * Crypto * World :=
  match _key this with
  | None => (Throw TypeError, this, w)
  | Some cell =>
      match getKeyChain host (this_options_platform this) this with
      | (Throw err, this) => (Throw err, this, w)
      | (Return k, this) =>
          match keychainPromises.getPassword k KEY_NAME ACCOUNT w with
          | (Throw err, w) => (Throw err, this, w)
          | (Return (_, password), w) =>
              (Return tt,
               with_key (SecureBuffer.consume (Buffer_from_utf8 password) cell)
                 this,
               w)
          end
      end
  end.

Definition retryStatus_is_KEY_SET (this : Crypto) : bool :=
  match Options.retryStatus (options this) with
  | Some s => String.eqb s "KEY_SET"
  | None => false
  end.

(** [init()].  The method calls itself after it has stored a new key; the
    fuel bounds the number of activations, and [None] is the answer of a
    run that needs more.  Every activation asks for the logger first, and
    throws what [Logger.child] was rejected with before it has assigned
    anything. *)
Fixpoint init {logger : Logger} (fuel : nat) (host : Host) (this : Crypto)
    (w : World) : option (Completion unit) * Crypto * World :=
  match fuel with
  | O => (None, this, w)
  | S fuel =>
      match Logger_child "crypto" with
      | Some err => (Some (Throw err), this, w)
      | None =>
          match init_try host (init_fields host this) w with
          | (Return _, this, w) => (Some (Return tt), this, w)
          | (Throw err, this, w) =>
              if String.eqb (error_name err) "PasswordNotFoundError" then
                if retryStatus_is_KEY_SET this then (Some (Throw err), this, w)
                else
                  let (bytes, w) := randomBytes 16 w in
                  let key := toString_hex bytes in
                  match Options.keychain (options this) with
                  | None => (Some (Throw UnexpectedValueTypeError), this, w)
                  | Some k =>
                      match
                        keychainPromises.setPassword k KEY_NAME ACCOUNT key w
                      with
                      | (Throw e, w) => (Some (Throw e), this, w)
                      | (Return _, w) => init fuel host this w
                      end
                  end
              else (Some (Throw err), this, w)
          end
      end
  end.

(** ** Instances a client can obtain *)

(** The states of an instance that the methods of the class lead to from
    the constructor, with whatever logger. *)
Inductive Reachable (host : Host) : Crypto -> Prop :=
| reach_constructor opts :
    Reachable host (constructor opts)
| reach_init (logger : Logger) this fuel w :
    Reachable host this ->
    Reachable host (snd (fst (init fuel host this w)))
| reach_getKeyChain this platform :
    Reachable host this ->
    Reachable host (snd (getKeyChain host platform this))
| reach_close this :
    Reachable host this ->
    Reachable host (snd (close this)).

(** An instance as [Crypto.create] resolves to it: constructed, then
    initialized by a call of [init] that returned. *)
Definition created (host : Host) (opts : option Options.t) (w : World)
    (this : Crypto) (w' : World) : Prop :=
  exists fuel, init fuel host (constructor opts) w = (Some (Return tt), this, w').

(** Number of calls of each kind in a log. *)
Definition is_getPassword (c : Call) : bool :=
  match c with GetPassword _ _ => true | SetPassword _ _ _ => false end.
Definition is_setPassword (c : Call) : bool :=
  match c with GetPassword _ _ => false | SetPassword _ _ _ => true end.
Definition count_getPassword (l : list Call) : nat :=
  List.length (filter is_getPassword l).
Definition count_setPassword (l : list Call) : nat :=
  List.length (filter is_setPassword l).

(** ** Vocabulary of the statements *)

(** A completion that is an exception of the given name. *)
Definition fails_with {A : Type} (r : Completion A) (name : string) : Prop :=
  exists e, r = Throw e /\ error_name e = name.

(** The error [decrypt] throws from its [catch] block: the error of the
    decipher, wrapped, its message replaced by [AuthDecryptError]. *)
Definition is_DecryptionError (this : Crypto) (r : Completion JsValue) : Prop :=
  exists m cause actions,
    messages this = Some m /\
    r = Throw (SfdxError_wrap (getMessage m "AuthDecryptError" [Plain cause])
                 actions).

(** A key the suite accepts: 32 bytes once the buffer has been turned
    into a string and back. *)
Definition suite_correct (buffer : list byte) : Prop :=
  List.length (cipher_key buffer) = 32.

(** The keychain an activation of [init] talks to: the one in the options
    or, when there is none, the one [retrieveKeychain] finds for the
    platform. *)
Definition keychain_in_use (host : Host) (this : Crypto) : Exception + Keychain :=
  match Options.keychain (options this) with
  | Some k => inr k
  | None => retrieveKeychain host (this_options_platform (init_fields host this))
  end.

(** The instance as the [try] block finds it once the keychain is known. *)
Definition prepared (host : Host) (this : Crypto) : Crypto :=
  snd (getKeyChain host (this_options_platform (init_fields host this))
         (init_fields host this)).

Definition not_found (r : Exception + string) : Prop :=
  exists err, r = inl err /\ error_name err = "PasswordNotFoundError".

(** The key [init] generates in a world: 16 random bytes in hexadecimal. *)
Definition fresh_key (w : World) : string :=
  toString_hex (fst (randomBytes 16 w)).

(** The world after a key has been generated and stored. *)
Definition provisioned (w : World) : World :=
  let w1 := record_call (GetPassword KEY_NAME ACCOUNT) w in
  record_call (SetPassword KEY_NAME ACCOUNT (fresh_key w1))
    (snd (randomBytes 16 w1)).

(** ** The cipher itself: AES-256 in Galois/Counter mode *)

(** The block cipher of FIPS 197 with a key of 256 bits.  Bytes are
  numbers below 256; a state is the list of its 16 bytes in the order of
  the input, column after column. *)
Module AES256.

Local Open Scope list_scope.
Local Open Scope N_scope.

Definition sbox : list N :=
[
    99; 124; 119; 123; 242; 107; 111; 197;  48;   1; 103;  43; 254; 215; 171; 118;
   202; 130; 201; 125; 250;  89;  71; 240; 173; 212; 162; 175; 156; 164; 114; 192;
   183; 253; 147;  38;  54;  63; 247; 204;  52; 165; 229; 241; 113; 216;  49;  21;
     4; 199;  35; 195;  24; 150;   5; 154;   7;  18; 128; 226; 235;  39; 178; 117;
     9; 131;  44;  26;  27; 110;  90; 160;  82;  59; 214; 179;  41; 227;  47; 132;
    83; 209;   0; 237;  32; 252; 177;  91; 106; 203; 190;  57;  74;  76;  88; 207;
   208; 239; 170; 251;  67;  77;  51; 133;  69; 249;   2; 127;  80;  60; 159; 168;
    81; 163;  64; 143; 146; 157;  56; 245; 188; 182; 218;  33;  16; 255; 243; 210;
   205;  12;  19; 236;  95; 151;  68;  23; 196; 167; 126;  61; 100;  93;  25; 115;
    96; 129;  79; 220;  34;  42; 144; 136;  70; 238; 184;  20; 222;  94;  11; 219;
   224;  50;  58;  10;  73;   6;  36;  92; 194; 211; 172;  98; 145; 149; 228; 121;
   231; 200;  55; 109; 141; 213;  78; 169; 108;  86; 244; 234; 101; 122; 174;   8;
   186; 120;  37;  46;  28; 166; 180; 198; 232; 221; 116;  31;  75; 189; 139; 138;
   112;  62; 181; 102;  72;   3; 246;  14;  97;  53;  87; 185; 134; 193;  29; 158;
   225; 248; 152;  17; 105; 217; 142; 148; 155;  30; 135; 233; 206;  85;  40; 223;
   140; 161; 137;  13; 191; 230;  66; 104;  65; 153;  45;  15; 176;  84; 187;  22  ].

Definition sub_byte (b : N) : N := nth (N.to_nat b) sbox 0.

(** Multiplication by [x] in GF(2^8) modulo [x^8 + x^4 + x^3 + x + 1]. *)
Definition xtime (b : N) : N :=
  if N.testbit b 7 then N.lxor (N.land (N.shiftl b 1) 255) 27
  else N.shiftl b 1.

Definition sub_bytes (s : list N) : list N := map sub_byte s.

(** Row [r] of the state is rotated by [r] columns: byte [4c + r] of the
    result is byte [4((c + r) mod 4) + r] of the argument. *)
Definition shift_rows (s : list N) : list N :=
  map (fun i => nth i s 0)
    [0; 5; 10; 15; 4; 9; 14; 3; 8; 13; 2; 7; 12; 1; 6; 11]%nat.

Definition mix_column (a0 a1 a2 a3 : N) : list N :=
  let m2 := xtime in
  let m3 := fun a => N.lxor (xtime a) a in
  [ N.lxor (N.lxor (m2 a0) (m3 a1)) (N.lxor a2 a3);
    N.lxor (N.lxor a0 (m2 a1)) (N.lxor (m3 a2) a3);
    N.lxor (N.lxor a0 a1) (N.lxor (m2 a2) (m3 a3));
    N.lxor (N.lxor (m3 a0) a1) (N.lxor a2 (m2 a3)) ].

Fixpoint mix_columns (s : list N) : list N :=
  match s with
  | a0 :: a1 :: a2 :: a3 :: rest => mix_column a0 a1 a2 a3 ++ mix_columns rest
  | _ => []
  end.

Fixpoint xor_list (a b : list N) : list N :=
  match a, b with
  | x :: a', y :: b' => N.lxor x y :: xor_list a' b'
  | _, _ => []
  end.

(** *** Key expansion, on words of four bytes *)

Definition sub_word (w : list N) : list N := map sub_byte w.

Definition rot_word (w : list N) : list N :=
  match w with
  | a :: rest => rest ++ [a]
  | [] => []
  end.

(** [rcon j] is [x^(j-1)] in GF(2^8). *)
Fixpoint rcon (j : nat) : N :=
  match j with
  | O => 0
  | 1%nat => 1
  | S j' => xtime (rcon j')
  end.

(** One step of the expansion.  [ws] holds the words computed so far,
    the latest first; [i] is the index of the word to compute. *)
Definition next_word (i : nat) (ws : list (list N)) : list N :=
  let prev := nth 0 ws [] in
  let temp :=
    if Nat.eqb (i mod 8) 0 then
      xor_list (sub_word (rot_word prev)) [rcon (i / 8); 0; 0; 0]
    else if Nat.eqb (i mod 8) 4 then sub_word prev
    else prev in
  xor_list (nth 7 ws []) temp.

Fixpoint words_of (bs : list N) : list (list N) :=
  match bs with
  | a :: b :: c :: d :: rest => [a; b; c; d] :: words_of rest
  | _ => []
  end.

(** The sixty words of the key schedule, in order. *)
Definition key_expansion (key : list N) : list (list N) :=
  rev (fold_left (fun ws i => next_word i ws :: ws) (seq 8 52)
         (rev (words_of key))).

Fixpoint round_keys (ws : list (list N)) : list (list N) :=
  match ws with
  | a :: b :: c :: d :: rest => (a ++ b ++ c ++ d) :: round_keys rest
  | _ => []
  end.

Definition round (s k : list N) : list N :=
  xor_list (mix_columns (shift_rows (sub_bytes s))) k.

Definition final_round (s k : list N) : list N :=
  xor_list (shift_rows (sub_bytes s)) k.

(** [Cipher] of FIPS 197, figure 5, with [Nr = 14]. *)
Definition cipher (key block : list N) : list N :=
  match round_keys (key_expansion key) with
  | k0 :: ks =>
      let s := xor_list block k0 in
      let s := fold_left round (removelast ks) s in
      final_round s (last ks [])
  | [] => []
  end.

End AES256.

(** Galois/Counter mode of NIST SP 800-38D over [AES256.cipher], with no
  additional authenticated data.  A block is a number below [2^128], its
  first byte the most significant. *)
Module GCM.

Local Open Scope list_scope.
Local Open Scope N_scope.

Fixpoint N_of_bytes (bs : list N) : N :=
  match bs with
  | [] => 0
  | b :: rest => N.shiftl b (8 * N.of_nat (List.length rest)) + N_of_bytes rest
  end.

(** The [n] bytes of [x], most significant first. *)
Fixpoint bytes_of_N (n : nat) (x : N) : list N :=
  match n with
  | O => []
  | S n' => N.land (N.shiftr x (8 * N.of_nat n')) 255 :: bytes_of_N n' x
  end.

(** Multiplication in GF(2^128) (algorithm 1): the leftmost bit of a
    block is the coefficient of degree 0. *)
Definition R : N := N.shiftl 225 120.

Definition mul_step (X : N) (acc : N * N) (i : nat) : N * N :=
  let (Z, V) := acc in
  (if N.testbit X (127 - N.of_nat i) then N.lxor Z V else Z,
   if N.testbit V 0 then N.lxor (N.shiftr V 1) R else N.shiftr V 1).

Definition mul (X Y : N) : N :=
  fst (fold_left (mul_step X) (seq 0 128) (0, Y)).

(** The blocks of a byte string, the last one padded with zeros. *)
Fixpoint blocks (fuel : nat) (bs : list N) : list N :=
  match fuel, bs with
  | _, [] => []
  | O, _ => []
  | S fuel', _ =>
      N_of_bytes (firstn 16 (bs ++ repeat 0 15)) :: blocks fuel' (skipn 16 bs)
  end.

Definition padded (bs : list N) : list N := blocks (List.length bs) bs.

(** [GHASH] (algorithm 2). *)
Definition ghash (H : N) (xs : list N) : N :=
  fold_left (fun Y X => mul (N.lxor Y X) H) xs 0.

Definition inc32 (X : N) : N :=
  N.lor (N.shiftl (N.shiftr X 32) 32) (N.land (X + 1) 4294967295).

Definition E (key : list N) (X : N) : N :=
  N_of_bytes (AES256.cipher key (bytes_of_N 16 X)).

Definition hash_key (key : list N) : N := E key 0.

(** The pre-counter block [J0] (algorithm 4, step 2). *)
Definition J0 (key iv : list N) : N :=
  if Nat.eqb (List.length iv) 12 then N.shiftl (N_of_bytes iv) 32 + 1
  else ghash (hash_key key)
         (padded iv ++ [8 * N.of_nat (List.length iv)]).

(** [n] bytes of key stream: the encryptions of the counter blocks that
    follow [ctr]. *)
Fixpoint keystream (key : list N) (ctr : N) (nblocks : nat) : list N :=
  match nblocks with
  | O => []
  | S k => bytes_of_N 16 (E key (inc32 ctr)) ++ keystream key (inc32 ctr) k
  end.

(** [GCTR] (algorithm 3) from the block after [J0]. *)
Definition gctr (key iv text : list N) : list N :=
  AES256.xor_list text
    (keystream key (J0 key iv) ((List.length text + 15) / 16)).

(** The full tag of a ciphertext (algorithm 4, steps 5 and 6). *)
Definition tag_of (key iv secret : list N) : list N :=
  let S :=
    ghash (hash_key key)
      (padded secret ++ [8 * N.of_nat (List.length secret)]) in
  bytes_of_N 16 (N.lxor S (E key (J0 key iv))).

End GCM.

(** The cipher as Node exposes it, on buffers. *)
Module NodeCrypto.

Local Open Scope list_scope.

Definition numbers (buf : list byte) : list N := map Byte.to_N buf.

Definition byte_of_N (n : N) : byte :=
  match Byte.of_N n with
  | Some b => b
  | None => x00
  end.

Definition buffer (ns : list N) : list byte := map byte_of_N ns.

Fixpoint same_bytes (a b : list N) : bool :=
  match a, b with
  | [], [] => true
  | x :: a', y :: b' => (N.eqb x y && same_bytes a' b')%bool
  | _, _ => false
  end.

(** Both constructors insist on a key of 32 bytes and refuse an empty
    nonce. *)
Definition createCipheriv (key iv : list byte) : option string :=
  if negb (Nat.eqb (List.length key) 32) then Some "Invalid key length"
  else if Nat.eqb (List.length iv) 0 then Some "Invalid IV length"
  else None.

Definition cipher_run (key iv text : list byte) : list byte * list byte :=
  let secret := GCM.gctr (numbers key) (numbers iv) (numbers text) in
  (buffer secret, buffer (GCM.tag_of (numbers key) (numbers iv) secret)).

(** The lengths [setAuthTag] accepts. *)
Definition tag_length_ok (n : nat) : bool :=
  existsb (Nat.eqb n) [4; 8; 12; 13; 14; 15; 16].

Definition setAuthTag (tag : list byte) : option string :=
  if negb (tag_length_ok (List.length tag))
  then Some "Invalid authentication tag length"
  else None.

(** [final] compares the tag it was given with as many bytes of the tag
    of the ciphertext. *)
Definition decipher_run (key iv tag secret : list byte)
  : string + list byte :=
  if negb (tag_length_ok (List.length tag))
  then inl "Invalid authentication tag length"
  else if same_bytes (numbers tag)
            (firstn (List.length tag)
               (GCM.tag_of (numbers key) (numbers iv) (numbers secret)))
  then inr (buffer (GCM.gctr (numbers key) (numbers iv) (numbers secret)))
  else inl "Unsupported state or unable to authenticate data".

(** Numbers that are bytes. *)
Definition small (ns : list N) : Prop := Forall (fun n => (n < 256)%N) ns.

End NodeCrypto.

(** ** A concrete setting *)

(** A host, two keychains and a random source, to run the methods on. *)
Module Scenario.

Definition PasswordNotFoundError : Exception :=
  KeychainError "PasswordNotFoundError" "Could not find password.".

(** The password last stored under a service and an account. *)
Fixpoint stored (log : list Call) (service account : string)
    (found : option string) : option string :=
  match log with
  | [] => found
  | SetPassword s a p :: rest =>
      if (String.eqb s service && String.eqb a account)%bool
      then stored rest service account (Some p)
      else stored rest service account found
  | GetPassword _ _ :: rest => stored rest service account found
  end.

(** A keychain that keeps what it is given. *)
Definition memory_keychain : Keychain :=
  {| kc_getPassword log service account :=
       match stored log service account None with
       | Some p => inr p
       | None => inl PasswordNotFoundError
       end;
     kc_setPassword _ _ _ _ := None |}.

(** A keychain that accepts every password and keeps none. *)
Definition forgetful_keychain : Keychain :=
  {| kc_getPassword _ _ _ := inl PasswordNotFoundError;
     kc_setPassword _ _ _ _ := None |}.

Definition host : Host :=
  {| os_platform := "linux";
     env_getBoolean _ := false;
     retrieveKeychain _ := inr memory_keychain |}.

(** Nothing has been called yet; byte [n] of the random stream is
    [37 n + 11] modulo 256. *)
Definition world : World :=
  {| calls := [];
     entropy n := NodeCrypto.byte_of_N (N.modulo (37 * N.of_nat n + 11) 256);
     drawn := 0 |}.

Definition with_keychain (k : Keychain) (noReset : bool) : Options.t :=
  {| Options.platform := None; Options.keychain := Some k;
     Options.noResetOnClose := noReset; Options.retryStatus := None |}.

(** [Crypto.create()] on this host: the instance and the world once
    [init] has returned. *)
Definition crypto : Crypto :=
  snd (fst (init 2 host (constructor None) world)).
Definition world' : World := snd (init 2 host (constructor None) world).

(** The same with the option [noResetOnClose] set. *)
Definition keeper : Crypto :=
  snd (fst (init 2 host (constructor (Some (with_keychain memory_keychain true)))
              world)).

(** A secret, and the envelope [encrypt] makes of it on [crypto] in
    [world']: the key is ["0b30557a9fc4e90e33587da2c7ec1136"] and the
    nonce ["5b80a5caef14"]. *)
Definition token : string := "secret token".
Definition envelope : string :=
  "5b80a5caef14063847946368c91b05b43066:69bf411815769aca359bf6fcb926e457".

(** A secret of two blocks, its envelope under the same key and nonce,
    and an envelope that differs from it in the ciphertext only: bit 0 of
    the first byte is inverted, and the second block is changed by the
    product of that difference and the hash key, which leaves the tag of
    the ciphertext as it was. *)
Definition long_token : string := "00D5e0000008abc!AQEAsecret.token".
Definition long_envelope : string :=
  "5b80a5caef14456d60d3632cd95f5aef6530596c665fe16ab408b6064a477cc1ad718ca781f5:46b33044b2d2fba9f65df92880473994".
Definition forged_envelope : string :=
  "5b80a5caef14446d60d3632cd95f5aef6530596c665f4ccd387053ec5f96d48a7dbafc05188e:46b33044b2d2fba9f65df92880473994".

(** What the forged envelope deciphers to. *)
Definition forged_text : list byte :=
  NodeCrypto.buffer
    [49; 48; 68; 53; 101; 48; 48; 48; 48; 48; 48; 56; 97; 98; 99; 33;
     236; 246; 201; 57; 150; 143; 118; 163; 205; 63; 254; 191; 31; 201;
     252; 21]%N.

End Scenario.

(** ** What [init] leaves alone *)

(** The options of [this'] are those of [this] but for the two fields
    [init] and [getKeyChain] fill in when they are missing: a platform
    that is given and a keychain that is given stay. *)
Definition same_options (this this' : Crypto) : Prop :=
  Options.retryStatus (options this') = Options.retryStatus (options this) /\
  Options.noResetOnClose (options this')
  = Options.noResetOnClose (options this) /\
  (forall k, Options.keychain (options this) = Some k ->
             Options.keychain (options this') = Some k) /\
  (truthy_string (Options.platform (options this)) = true ->
   Options.platform (options this') = Options.platform (options this)).

(** ** More keychains and hosts *)

Module Cases.

(** A keychain that cannot be read. *)
Definition KeychainAccessError : Exception :=
  KeychainError "KeychainAccessError" "The keychain is locked.".

Definition locked_keychain : Keychain :=
  {| kc_getPassword _ _ _ := inl KeychainAccessError;
     kc_setPassword _ _ _ _ := Some KeychainAccessError |}.

(** A keychain that holds nothing and cannot be written. *)
Definition SetPasswordError : Exception :=
  KeychainError "SetPasswordError" "The keychain is read-only.".

Definition readonly_keychain : Keychain :=
  {| kc_getPassword _ _ _ := inl Scenario.PasswordNotFoundError;
     kc_setPassword _ _ _ _ := Some SetPasswordError |}.

(** A keychain that answers with a password of its own once any password
    has been stored. *)
Definition preset : string := "ffeeddccbbaa99887766554433221100".

Definition preset_keychain : Keychain :=
  {| kc_getPassword log _ _ :=
       if existsb is_setPassword log then inr preset
       else inl Scenario.PasswordNotFoundError;
     kc_setPassword _ _ _ _ := None |}.

(** A host on which no keychain is found. *)
Definition UnsupportedOperatingSystem : Exception :=
  KeychainError "UnsupportedOperatingSystem" "No keychain for this platform.".

Definition bare_host : Host :=
  {| os_platform := "aix";
     env_getBoolean _ := false;
     retrieveKeychain _ := inl UnsupportedOperatingSystem |}.

(** A Mac. *)
Definition mac_host : Host :=
  {| os_platform := "darwin";
     env_getBoolean _ := false;
     retrieveKeychain _ := inr Scenario.memory_keychain |}.

(** Options that name a keychain and say that a key was set. *)
Definition key_set (k : Keychain) : Options.t :=
  {| Options.platform := None; Options.keychain := Some k;
     Options.noResetOnClose := false; Options.retryStatus := Some "KEY_SET" |}.

(** The instance of the setting with a password of five bytes in its
    key cell. *)
Definition short_keyed : Crypto :=
  with_key (SecureBuffer.Populated (Buffer_from_utf8 "short")) Scenario.crypto.

(** The envelope of the setting with the last digit of its tag changed. *)
Definition bad_tag_envelope : string :=
  "5b80a5caef14063847946368c91b05b43066:69bf411815769aca359bf6fcb926e458".

(** The instance of the setting with a keychain that cannot be read in
    its options. *)
Definition locked_out : Crypto :=
  with_options (Scenario.with_keychain locked_keychain false) Scenario.crypto.

(** An instance that was not initialized, with the key of the setting put
    in its key cell. *)
Definition transplanted : Crypto :=
  with_key
    (SecureBuffer.Populated
       (Buffer_from_utf8 "0b30557a9fc4e90e33587da2c7ec1136"))
    (constructor None).

(** What [encrypt] makes of the secret of the setting when it is called a
    second time. *)
Definition second_envelope : string :=
  "395e83a8cdf26d4d6b507ed5e62934fe46ca:2beb7a226b039764f0275f967b1c0608".

(** A logger that cannot be had. *)
Definition LoggerError : Exception :=
  SfdxError (Plain "The log file cannot be opened.") "LoggerError" [].

Definition logger_down : Logger := {| Logger_child _ := Some LoggerError |}.

(** Twelve times the letter e with an acute accent, which is two bytes in
    UTF-8 and one UTF-16 code unit. *)
Definition accented : string :=
  string_of_list_byte (List.concat (repeat [xc3; xa9] 12)).

End Cases.

(** * Properties *)

(** Splits a conjunction into its parts, and nothing else. *)
Ltac split_and := repeat match goal with |- _ /\ _ => split end.

Lemma inr_inj {A B : Type} (x y : B) : @inr A B x = inr y -> x = y.
Proof.
  intros H.
  exact (f_equal (fun s => match s with inr b => b | inl _ => x end) H).
Qed.

(** ** Strings *)

Lemma length_append (a b : string) :
  String.length (a ++ b) = String.length a + String.length b.
Proof. induction a as [|c a IH]; simpl; [reflexivity | now rewrite IH]. Qed.

Lemma append_assoc (a b c : string) : (a ++ b) ++ c = a ++ (b ++ c).
Proof. induction a as [|x a IH]; simpl; [reflexivity | now rewrite IH]. Qed.

Lemma all_chars_append (p : ascii -> bool) (a b : string) :
  all_chars p (a ++ b) = (all_chars p a && all_chars p b)%bool.
Proof.
  induction a as [|c a IH]; simpl; [reflexivity|].
  now rewrite IH, andb_assoc.
Qed.

Lemma all_chars_weaken (p q : ascii -> bool) (s : string) :
  (forall c, p c = true -> q c = true) ->
  all_chars p s = true -> all_chars q s = true.
Proof.
  intros Hpq. induction s as [|c s IH]; simpl; [reflexivity|].
  intros H. apply andb_true_iff in H as [Hc Hs].
  now rewrite (Hpq c Hc), (IH Hs).
Qed.

Lemma append_empty (s : string) : s ++ EmptyString = s.
Proof. induction s as [|c s IH]; simpl; [reflexivity | now rewrite IH]. Qed.

(** ** Lengths and positions *)

Lemma ascii_one_unit (c : ascii) :
  is_ascii c = true -> utf16_units c = 1 /\ utf8_size c = 1.
Proof.
  unfold is_ascii, utf16_units, utf8_size. intros H.
  apply N.ltb_lt in H.
  rewrite (proj2 (N.ltb_lt _ 240)), (proj2 (N.ltb_lt _ 192)) by lia.
  now split.
Qed.

Lemma hex_digit_ascii (c : ascii) : is_hex_digit c = true -> is_ascii c = true.
Proof.
  unfold is_hex_digit, is_ascii. intros H. apply N.ltb_lt.
  apply orb_true_iff in H as [H|H]; apply andb_true_iff in H as [_ H];
    apply N.leb_le in H; lia.
Qed.

(** A character of two units is one of four bytes. *)
Lemma two_units_size (c : ascii) :
  Nat.eqb (utf16_units c) 1 = false -> utf16_units c = 2.
Proof. unfold utf16_units. now destruct (N.ltb _ 240). Qed.

Lemma js_length_append (a b : string) :
  all_chars is_ascii a = true ->
  js_length (a ++ b) = String.length a + js_length b.
Proof.
  unfold js_length. induction a as [|c a IH]; [reflexivity|].
  cbn [all_chars append js_length_from String.length].
  intros H. apply andb_true_iff in H as [Hc Ha].
  destruct (ascii_one_unit c Hc) as [-> ->]. cbn [Nat.sub].
  now rewrite (IH Ha).
Qed.

Lemma js_length_ascii (s : string) :
  all_chars is_ascii s = true -> js_length s = String.length s.
Proof.
  intros H. rewrite <- (append_empty s) at 1.
  rewrite (js_length_append _ _ H). unfold js_length. simpl. lia.
Qed.

(** Between two characters it does not matter whether the last one was
    taken. *)
Lemma js_slice_keep (lo hi pos : nat) (k k' : bool) (s : string) :
  js_slice lo hi pos 0 k s = js_slice lo hi pos 0 k' s.
Proof. now destruct s. Qed.

(** A slice that covers the string is the string. *)
Lemma js_slice_all (lo hi : nat) (s : string) :
  forall pos skip,
    lo <= pos -> pos + js_length_from skip s <= hi ->
    js_slice lo hi pos skip true s = s.
Proof.
  induction s as [|c s IH]; intros pos skip Hlo Hhi; [reflexivity|].
  cbn [js_slice js_length_from] in *.
  destruct skip as [|k].
  - destruct (Nat.eqb (utf16_units c) 1) eqn:Hu.
    + apply Nat.eqb_eq in Hu. rewrite Hu in Hhi.
      unfold inside.
      rewrite (proj2 (Nat.leb_le lo pos)), (proj2 (Nat.ltb_lt pos hi)) by lia.
      cbn [andb]. f_equal. apply IH; lia.
    + apply two_units_size in Hu. rewrite Hu in Hhi.
      unfold inside.
      rewrite (proj2 (Nat.leb_le lo pos)), (proj2 (Nat.ltb_lt pos hi)),
        (proj2 (Nat.leb_le lo (S pos))), (proj2 (Nat.ltb_lt (S pos) hi))
        by lia.
      cbn [andb]. f_equal. apply IH; lia.
  - f_equal. apply IH; lia.
Qed.

(** A slice that ends before the string starts, or starts after it has
    ended, is empty. *)
Lemma js_slice_after (lo hi : nat) (s : string) :
  forall pos skip, hi <= pos -> js_slice lo hi pos skip false s = EmptyString.
Proof.
  induction s as [|c s IH]; intros pos skip Hhi; [reflexivity|].
  cbn [js_slice].
  destruct skip as [|k]; [|now apply IH].
  unfold inside.
  rewrite (proj2 (Nat.ltb_ge pos hi)), (proj2 (Nat.ltb_ge (S pos) hi)) by lia.
  rewrite !andb_false_r.
  destruct (Nat.eqb (utf16_units c) 1); apply IH; lia.
Qed.

Lemma js_slice_before (lo hi : nat) (s : string) :
  forall pos skip,
    pos + js_length_from skip s <= lo ->
    js_slice lo hi pos skip false s = EmptyString.
Proof.
  induction s as [|c s IH]; intros pos skip Hlo; [reflexivity|].
  cbn [js_slice js_length_from] in *.
  destruct skip as [|k]; [|now apply IH].
  destruct (Nat.eqb (utf16_units c) 1) eqn:Hu.
  - apply Nat.eqb_eq in Hu. rewrite Hu in Hlo.
    unfold inside. rewrite (proj2 (Nat.leb_gt lo pos)) by lia.
    cbn [andb]. apply IH. lia.
  - apply two_units_size in Hu. rewrite Hu in Hlo.
    unfold inside.
    rewrite (proj2 (Nat.leb_gt lo pos)), (proj2 (Nat.leb_gt lo (S pos)))
      by lia.
    cbn [andb]. apply IH. lia.
Qed.

(** ASCII characters at the start of a string, inside the slice and
    before it. *)
Lemma js_slice_ascii_inside (lo hi : nat) (a b : string) :
  forall pos k,
    all_chars is_ascii a = true ->
    lo <= pos -> pos + String.length a <= hi ->
    js_slice lo hi pos 0 k (a ++ b)
    = a ++ js_slice lo hi (pos + String.length a) 0 false b.
Proof.
  induction a as [|c a IH]; intros pos k Ha Hlo Hhi.
  - cbn [append String.length]. rewrite Nat.add_0_r. apply js_slice_keep.
  - cbn [all_chars append String.length js_slice] in *.
    apply andb_true_iff in Ha as [Hc Ha].
    destruct (ascii_one_unit c Hc) as [-> ->]. cbn [Nat.eqb Nat.sub].
    unfold inside.
    rewrite (proj2 (Nat.leb_le lo pos)), (proj2 (Nat.ltb_lt pos hi)) by lia.
    cbn [andb]. f_equal. rewrite (IH (S pos) true Ha) by lia.
    now rewrite Nat.add_succ_r.
Qed.

Lemma js_slice_ascii_before (lo hi : nat) (a b : string) :
  forall pos k,
    all_chars is_ascii a = true ->
    pos + String.length a <= lo ->
    js_slice lo hi pos 0 k (a ++ b)
    = js_slice lo hi (pos + String.length a) 0 false b.
Proof.
  induction a as [|c a IH]; intros pos k Ha Hlo.
  - cbn [append String.length]. rewrite Nat.add_0_r. apply js_slice_keep.
  - cbn [all_chars append String.length js_slice] in *.
    apply andb_true_iff in Ha as [Hc Ha].
    destruct (ascii_one_unit c Hc) as [-> ->]. cbn [Nat.eqb Nat.sub].
    unfold inside. rewrite (proj2 (Nat.leb_gt lo pos)) by lia.
    cbn [andb]. rewrite (IH (S pos) false Ha) by lia.
    now rewrite Nat.add_succ_r.
Qed.

(** The two slices [decrypt] takes of the first segment. *)
Lemma js_substring_head (n : nat) (a b : string) :
  all_chars is_ascii a = true ->
  String.length a = n -> js_substring 0 n (a ++ b) = a.
Proof.
  intros Ha <-. unfold js_substring.
  rewrite Nat.min_0_l, Nat.max_0_l.
  rewrite (js_slice_ascii_inside _ _ _ _ _ _ Ha) by lia.
  rewrite js_slice_after by lia. apply append_empty.
Qed.

Lemma js_substring_tail (n : nat) (a b : string) :
  all_chars is_ascii a = true ->
  String.length a = n ->
  js_substring n (js_length (a ++ b)) (a ++ b) = b.
Proof.
  intros Ha <-. unfold js_substring. rewrite (js_length_append _ _ Ha).
  rewrite Nat.min_l, Nat.max_r by lia.
  rewrite (js_slice_ascii_before _ _ _ _ _ _ Ha) by lia.
  rewrite (js_slice_keep _ _ _ false true).
  apply js_slice_all; [lia | unfold js_length; lia].
Qed.

(** The same slices of a segment that is no longer than the first. *)
Lemma js_substring_short_head (n : nat) (s : string) :
  js_length s <= n -> js_substring 0 n s = s.
Proof.
  intros H. unfold js_substring. rewrite Nat.min_0_l, Nat.max_0_l.
  rewrite (js_slice_keep _ _ _ false true).
  apply js_slice_all; [lia | exact H].
Qed.

Lemma js_substring_short_tail (n : nat) (s : string) :
  js_length s <= n -> js_substring n (js_length s) s = EmptyString.
Proof.
  intros H. unfold js_substring. rewrite Nat.min_r, Nat.max_l by lia.
  apply js_slice_before. unfold js_length. lia.
Qed.

(** ** Splitting *)

Lemma split_without (sep : ascii) (s : string) :
  all_chars (not_char sep) s = true -> split sep s = [s].
Proof.
  induction s as [|c s IH]; simpl; [reflexivity|].
  unfold not_char at 1. intros H. apply andb_true_iff in H as [Hc Hs].
  apply negb_true_iff in Hc. rewrite Hc, (IH Hs). reflexivity.
Qed.

Lemma split_append (sep : ascii) (a b : string) :
  all_chars (not_char sep) a = true ->
  split sep (a ++ String sep b) = a :: split sep b.
Proof.
  induction a as [|c a IH]; simpl.
  - intros _. now rewrite Ascii.eqb_refl.
  - unfold not_char at 1. intros H. apply andb_true_iff in H as [Hc Ha].
    apply negb_true_iff in Hc. rewrite Hc, (IH Ha). reflexivity.
Qed.

Lemma length_split (sep : ascii) (s : string) :
  List.length (split sep s) = S (occurrences sep s).
Proof.
  induction s as [|c s IH]; simpl; [reflexivity|].
  destruct (Ascii.eqb c sep); simpl; [now rewrite IH|].
  destruct (split sep s) as [|tok toks] eqn:E; simpl in *; [discriminate|].
  exact IH.
Qed.

(** ** Hexadecimal *)

Lemma hex_of_byte_decodes (b : byte) (s : string) :
  Buffer_from_hex (hex_of_byte b ++ s) = b :: Buffer_from_hex s.
Proof. destruct b; reflexivity. Qed.

Lemma Buffer_from_hex_toString_hex (bs : list byte) :
  Buffer_from_hex (toString_hex bs) = bs.
Proof.
  induction bs as [|b bs IH]; [reflexivity|].
  cbn [toString_hex]. rewrite hex_of_byte_decodes, IH. reflexivity.
Qed.

Lemma hex_of_byte_digits (b : byte) :
  all_chars is_hex_digit (hex_of_byte b) = true.
Proof. destruct b; reflexivity. Qed.

Lemma toString_hex_digits (bs : list byte) :
  all_chars is_hex_digit (toString_hex bs) = true.
Proof.
  induction bs as [|b bs IH]; [reflexivity|].
  cbn [toString_hex]. now rewrite all_chars_append, hex_of_byte_digits, IH.
Qed.

Lemma toString_hex_ascii (bs : list byte) :
  all_chars is_ascii (toString_hex bs) = true.
Proof.
  apply all_chars_weaken with (p := is_hex_digit).
  - exact hex_digit_ascii.
  - apply toString_hex_digits.
Qed.

Lemma length_toString_hex (bs : list byte) :
  String.length (toString_hex bs) = 2 * List.length bs.
Proof.
  induction bs as [|b bs IH]; [reflexivity|].
  cbn [toString_hex]. rewrite length_append, IH. simpl. lia.
Qed.

Lemma even_toString_hex (bs : list byte) :
  Nat.odd (js_length (toString_hex bs)) = false.
Proof.
  rewrite (js_length_ascii _ (toString_hex_ascii bs)), length_toString_hex.
  rewrite Nat.odd_mul. reflexivity.
Qed.

Lemma hex_digit_not_delimiter (c : ascii) :
  is_hex_digit c = true -> not_char TAG_DELIMITER c = true.
Proof.
  unfold not_char. destruct (Ascii.eqb_spec c TAG_DELIMITER) as [->|]; [|reflexivity].
  discriminate.
Qed.

Lemma toString_hex_no_delimiter (bs : list byte) :
  all_chars (not_char TAG_DELIMITER) (toString_hex bs) = true.
Proof.
  apply all_chars_weaken with (p := is_hex_digit).
  - exact hex_digit_not_delimiter.
  - apply toString_hex_digits.
Qed.

(** ** UTF-8 *)

Lemma length_Buffer_from_utf8 (s : string) :
  List.length (Buffer_from_utf8 s) = String.length s.
Proof.
  unfold Buffer_from_utf8, list_byte_of_string.
  rewrite length_map. induction s as [|c s IH]; simpl; [reflexivity | now rewrite IH].
Qed.

Lemma in_range_disjoint (lo hi lo' hi' : N) (b : byte) :
  (hi' < lo)%N -> in_range lo hi b = true -> in_range lo' hi' b = false.
Proof.
  unfold in_range. intros Hlt H.
  apply andb_true_iff in H as [H _]. apply N.leb_le in H.
  apply andb_false_iff. right. apply N.leb_gt. lia.
Qed.

(** The decoder leaves well-formed UTF-8 as it is. *)
Lemma utf8_scrub_valid (bs : list byte) : utf8_valid bs -> utf8_scrub bs = bs.
Proof.
  induction 1 as [| b r Hb _ IH | b0 b1 r H0 H1 _ IH
                 | b0 b1 b2 r H0 H1 H2 _ IH
                 | b0 b1 b2 b3 r H0 H1 H2 H3 _ IH ].
  - reflexivity.
  - cbn [utf8_scrub]. now rewrite Hb, IH.
  - cbn [utf8_scrub].
    rewrite (in_range_disjoint 194 223 0 127) by (try exact H0; lia).
    now rewrite H0, H1, IH.
  - cbn [utf8_scrub].
    rewrite (in_range_disjoint 224 239 0 127) by (try exact H0; lia).
    rewrite (in_range_disjoint 224 239 194 223) by (try exact H0; lia).
    now rewrite H0, H1, H2, IH.
  - cbn [utf8_scrub].
    rewrite (in_range_disjoint 240 244 0 127) by (try exact H0; lia).
    rewrite (in_range_disjoint 240 244 194 223) by (try exact H0; lia).
    rewrite (in_range_disjoint 240 244 224 239) by (try exact H0; lia).
    now rewrite H0, H1, H2, H3, IH.
Qed.

Lemma toString_utf8_Buffer_from_utf8 (s : string) :
  well_formed s -> toString_utf8 (Buffer_from_utf8 s) = s.
Proof.
  intros H. unfold toString_utf8. rewrite (utf8_scrub_valid _ H).
  apply string_of_list_byte_of_string.
Qed.

(** Text made of ASCII characters only is well formed. *)
Lemma ascii_utf8_valid (bs : list byte) :
  forallb (in_range 0 127) bs = true -> utf8_valid bs.
Proof.
  induction bs as [|b bs IH]; simpl; [constructor|].
  intros H. apply andb_true_iff in H as [Hb Hbs]. now constructor; auto.
Qed.

(** ** The random source *)

Lemma length_randomBytes (n : nat) (w : World) :
  List.length (fst (randomBytes n w)) = n.
Proof. unfold randomBytes. cbn [fst]. now rewrite length_map, length_seq. Qed.

(** ** The algorithm satisfies the interface *)

Module NodeCryptoLaws.

Import NodeCrypto.
Local Open Scope list_scope.

Lemma small_numbers (buf : list byte) : small (numbers buf).
Proof.
  induction buf as [|b buf IH]; constructor; [|exact IH].
  pose proof (Byte.to_N_bounded b). lia.
Qed.

Lemma buffer_numbers (buf : list byte) : buffer (numbers buf) = buf.
Proof.
  induction buf as [|b buf IH]; [reflexivity|].
  simpl. unfold byte_of_N at 1. now rewrite Byte.of_to_N, IH.
Qed.

Lemma numbers_buffer (ns : list N) : small ns -> numbers (buffer ns) = ns.
Proof.
  induction 1 as [|n ns Hn _ IH]; [reflexivity|].
  simpl. rewrite IH. f_equal. unfold byte_of_N.
  destruct (Byte.of_N n) as [b|] eqn:E.
  - now apply Byte.to_of_N.
  - apply Byte.of_N_None_iff in E. lia.
Qed.

Lemma same_bytes_eq (a b : list N) : same_bytes a b = true <-> a = b.
Proof.
  revert b. induction a as [|x a IH]; intros [|y b]; simpl;
    try (split; [discriminate | discriminate]); [tauto|].
  rewrite andb_true_iff, N.eqb_eq, IH. split.
  - now intros [-> ->].
  - now intros [= -> ->].
Qed.

(** *** Exclusive or of bytes *)

Lemma lxor_small (a b : N) : (a < 256 -> b < 256 -> N.lxor a b < 256)%N.
Proof.
  intros Ha Hb.
  assert (E : N.lxor a b = ((N.lxor a b) mod 2 ^ 8)%N).
  { apply N.bits_inj. intros n.
    destruct (N.lt_ge_cases n 8) as [Hn | Hn].
    - now rewrite N.mod_pow2_bits_low.
    - rewrite N.mod_pow2_bits_high by exact Hn.
      rewrite N.lxor_spec.
      rewrite <- (N.mod_small a (2 ^ 8)%N), <- (N.mod_small b (2 ^ 8)%N)
        by (exact Ha || exact Hb).
      now rewrite !N.mod_pow2_bits_high by exact Hn. }
  rewrite E. apply N.mod_lt. discriminate.
Qed.

Lemma xor_list_small (a b : list N) :
  small a -> small b -> small (AES256.xor_list a b).
Proof.
  intros Ha. revert b. induction Ha as [|x a Hx _ IH]; intros b Hb.
  - constructor.
  - destruct Hb as [|y b Hy Hb]; simpl; constructor.
    + now apply lxor_small.
    + now apply IH.
Qed.

Lemma length_xor_list (a b : list N) :
  List.length a <= List.length b ->
  List.length (AES256.xor_list a b) = List.length a.
Proof.
  revert b. induction a as [|x a IH]; intros [|y b]; simpl; intros H;
    try reflexivity; try lia.
  now rewrite IH by lia.
Qed.

Lemma xor_list_twice (a b : list N) :
  List.length a <= List.length b ->
  AES256.xor_list (AES256.xor_list a b) b = a.
Proof.
  revert b. induction a as [|x a IH]; intros [|y b]; simpl; intros H;
    try reflexivity; try lia.
  rewrite IH by lia. f_equal.
  now rewrite N.lxor_assoc, N.lxor_nilpotent, N.lxor_0_r.
Qed.

(** *** The key stream *)

Lemma length_bytes_of_N (n : nat) (x : N) :
  List.length (GCM.bytes_of_N n x) = n.
Proof. induction n as [|n IH]; simpl; [reflexivity | now rewrite IH]. Qed.

Lemma small_bytes_of_N (n : nat) (x : N) : small (GCM.bytes_of_N n x).
Proof.
  induction n as [|n IH]; simpl; constructor; [|exact IH].
  change 255%N with (N.ones 8). rewrite N.land_ones.
  apply N.mod_lt. discriminate.
Qed.

Lemma length_keystream (key : list N) (ctr : N) (k : nat) :
  List.length (GCM.keystream key ctr k) = 16 * k.
Proof.
  revert ctr. induction k as [|k IH]; intros ctr; cbn [GCM.keystream];
    [reflexivity|].
  rewrite length_app, length_bytes_of_N, IH. lia.
Qed.

Lemma small_keystream (key : list N) (ctr : N) (k : nat) :
  small (GCM.keystream key ctr k).
Proof.
  revert ctr. induction k as [|k IH]; intros ctr; cbn [GCM.keystream].
  - constructor.
  - apply Forall_app. split; [apply small_bytes_of_N | apply IH].
Qed.

Lemma keystream_covers (key : list N) (ctr : N) (n : nat) :
  n <= List.length (GCM.keystream key ctr ((n + 15) / 16)).
Proof.
  rewrite length_keystream.
  pose proof (Nat.div_mod_eq (n + 15) 16) as E.
  pose proof (Nat.mod_upper_bound (n + 15) 16). lia.
Qed.

Lemma length_gctr (key iv text : list N) :
  List.length (GCM.gctr key iv text) = List.length text.
Proof. unfold GCM.gctr. apply length_xor_list, keystream_covers. Qed.

Lemma small_gctr (key iv text : list N) :
  small text -> small (GCM.gctr key iv text).
Proof.
  intros H. unfold GCM.gctr. apply xor_list_small; [exact H|].
  apply small_keystream.
Qed.

(** Counter mode is its own inverse. *)
Lemma gctr_twice (key iv text : list N) :
  GCM.gctr key iv (GCM.gctr key iv text) = text.
Proof.
  unfold GCM.gctr at 1. rewrite length_gctr. unfold GCM.gctr.
  apply xor_list_twice, keystream_covers.
Qed.

Lemma small_tag_of (key iv secret : list N) :
  small (GCM.tag_of key iv secret).
Proof. unfold GCM.tag_of. apply small_bytes_of_N. Qed.

Lemma length_tag_of (key iv secret : list N) :
  List.length (GCM.tag_of key iv secret) = 16.
Proof. unfold GCM.tag_of. apply length_bytes_of_N. Qed.

(** *** The laws *)

Lemma createCipheriv_ok (key iv : list byte) :
  List.length key = 32 -> List.length iv = 12 -> createCipheriv key iv = None.
Proof. intros Hk Hi. unfold createCipheriv. now rewrite Hk, Hi. Qed.

Lemma length_buffer (ns : list N) : List.length (buffer ns) = List.length ns.
Proof. apply length_map. Qed.

Lemma length_numbers (buf : list byte) :
  List.length (numbers buf) = List.length buf.
Proof. apply length_map. Qed.

Lemma setAuthTag_refuses (key iv tag secret : list byte) (m : string) :
  setAuthTag tag = Some m -> decipher_run key iv tag secret = inl m.
Proof.
  unfold setAuthTag, decipher_run.
  destruct (negb (tag_length_ok (List.length tag))); [|discriminate].
  intros H. now injection H as <-.
Qed.

Lemma decipher_cipher (key iv text secret tag : list byte) :
  createCipheriv key iv = None ->
  cipher_run key iv text = (secret, tag) ->
  decipher_run key iv tag secret = inr text.
Proof.
  intros _ H.
  pose proof (f_equal fst H) as H1. pose proof (f_equal snd H) as H2.
  unfold cipher_run in H1, H2. cbn [fst snd] in H1, H2. clear H.
  subst secret tag. unfold decipher_run.
  set (c := GCM.gctr (numbers key) (numbers iv) (numbers text)).
  assert (Hc : small c) by apply small_gctr, small_numbers.
  rewrite (numbers_buffer c Hc).
  rewrite numbers_buffer by apply small_tag_of.
  rewrite length_buffer, length_tag_of.
  cbn [tag_length_ok existsb Nat.eqb negb orb].
  rewrite firstn_all2 by (rewrite length_tag_of; lia).
  replace (same_bytes _ _) with true by (symmetry; now apply same_bytes_eq).
  subst c. now rewrite gctr_twice, buffer_numbers.
Qed.

Lemma cipher_injective (key iv text text' : list byte) :
  createCipheriv key iv = None ->
  fst (cipher_run key iv text) = fst (cipher_run key iv text') ->
  text = text'.
Proof.
  intros _. unfold cipher_run. cbn [fst]. intros H.
  apply (f_equal numbers) in H.
  rewrite !numbers_buffer in H by apply small_gctr, small_numbers.
  apply (f_equal (GCM.gctr (numbers key) (numbers iv))) in H.
  rewrite !gctr_twice in H.
  apply (f_equal buffer) in H. now rewrite !buffer_numbers in H.
Qed.

Lemma decipher_sound (key iv tag secret text : list byte) :
  createCipheriv key iv = None ->
  decipher_run key iv tag secret = inr text ->
  exists tag',
    cipher_run key iv text = (secret, tag') /\
    firstn (List.length tag) tag' = tag.
Proof.
  intros _. unfold decipher_run.
  destruct (negb (tag_length_ok (List.length tag))); [discriminate|].
  destruct (same_bytes _ _) eqn:E; [|discriminate].
  intros H. apply inr_inj in H. subst text. apply same_bytes_eq in E.
  exists (buffer (GCM.tag_of (numbers key) (numbers iv) (numbers secret))).
  unfold cipher_run.
  rewrite numbers_buffer by apply small_gctr, small_numbers.
  rewrite gctr_twice, buffer_numbers.
  split; [reflexivity|].
  unfold buffer. rewrite firstn_map. fold (buffer (firstn (List.length tag)
    (GCM.tag_of (numbers key) (numbers iv) (numbers secret)))).
  rewrite <- E. apply buffer_numbers.
Qed.

End NodeCryptoLaws.

(** *** Known answers *)

(** FIPS 197, appendix C.3: the key [00 01 .. 1f] and the block
    [00 11 .. ff]. *)
Example aes256_known_answer :
  AES256.cipher (map N.of_nat (seq 0 32))
    (map (fun i => N.of_nat (17 * i)) (seq 0 16))
  = [142; 162; 183; 202; 81; 103; 69; 191;
     234; 252; 73; 144; 75; 73; 96; 137]%N.
Proof. vm_compute. reflexivity. Qed.

(** Test case 14 of the GCM specification: a key and a nonce of zeros and
    one block of zeros. *)
Example gcm_known_answer :
  let key := repeat 0%N 32 in
  let iv := repeat 0%N 12 in
  let secret := GCM.gctr key iv (repeat 0%N 16) in
  secret = [206; 167; 64; 61; 77; 96; 107; 110;
            7; 78; 197; 211; 186; 243; 157; 24]%N /\
  GCM.tag_of key iv secret
  = [208; 209; 200; 167; 153; 153; 107; 240;
     38; 91; 152; 181; 212; 138; 185; 25]%N.
Proof. vm_compute. split; reflexivity. Qed.

(** Node's cipher as an instance of the interface. *)
Definition node_aes_256_gcm : Aes256Gcm :=
  {| createCipheriv := NodeCrypto.createCipheriv;
     cipher_run := NodeCrypto.cipher_run;
     setAuthTag := NodeCrypto.setAuthTag;
     decipher_run := NodeCrypto.decipher_run;
     setAuthTag_refuses := NodeCryptoLaws.setAuthTag_refuses;
     createCipheriv_ok := NodeCryptoLaws.createCipheriv_ok;
     decipher_cipher := NodeCryptoLaws.decipher_cipher;
     cipher_injective := NodeCryptoLaws.cipher_injective;
     decipher_sound := NodeCryptoLaws.decipher_sound |}.

(** ** [encrypt] and [decrypt] *)

Section CipherProperties.

Context {suite : Aes256Gcm}.
Variable host : Host.

Lemma encrypt_callback_result (text iv : string) (buffer : list byte)
    (v : JsValue) :
  encrypt_callback text iv buffer = Return v ->
  exists secret tag,
    createCipheriv (cipher_key buffer) (Buffer_from_utf8 iv) = None /\
    cipher_run (cipher_key buffer) (Buffer_from_utf8 iv)
      (Buffer_from_utf8 text) = (secret, tag) /\
    v = Str (iv ++ toString_hex secret
               ++ String TAG_DELIMITER (toString_hex tag)).
Proof.
  unfold encrypt_callback.
  destruct (createCipheriv _ _) eqn:Hc; [discriminate|].
  destruct (cipher_run _ _ _) as [secret tag] eqn:Hr.
  intros [= <-]. now exists secret, tag.
Qed.

Lemma encrypt_callback_fails (text iv : string) (buffer : list byte)
    (e : Exception) :
  encrypt_callback text iv buffer = Throw e -> error_name e = "Error".
Proof.
  unfold encrypt_callback.
  destruct (createCipheriv _ _); [now intros [= <-]|].
  now destruct (cipher_run _ _ _).
Qed.

(** What [encrypt] returns for a text, when it returns. *)
Lemma encrypt_result (this : Crypto) (text : string) (w w' : World)
    (v : JsValue) :
  encrypt this (Str text) w = (Return v, w') ->
  exists buffer secret tag nonce,
    nonce = fst (randomBytes BYTE_COUNT_FOR_IV w) /\
    _key this = Some (SecureBuffer.Populated buffer) /\
    w' = snd (randomBytes BYTE_COUNT_FOR_IV w) /\
    createCipheriv (cipher_key buffer)
      (Buffer_from_utf8 (toString_hex nonce)) = None /\
    cipher_run (cipher_key buffer) (Buffer_from_utf8 (toString_hex nonce))
      (Buffer_from_utf8 text) = (secret, tag) /\
    v = Str (toString_hex nonce ++ toString_hex secret
               ++ String TAG_DELIMITER (toString_hex tag)).
Proof.
  unfold encrypt.
  destruct (_key this) as [[|buffer]|] eqn:Hk.
  - destruct (randomBytes _ _). cbn [SecureBuffer.value]. discriminate.
  - destruct (randomBytes BYTE_COUNT_FOR_IV w) as [nonce w1].
    cbn [SecureBuffer.value fst snd]. intros H.
    assert (Hv : encrypt_callback text (toString_hex nonce) buffer = Return v)
      by exact (f_equal fst H).
    assert (Hw : w1 = w') by exact (f_equal snd H).
    apply encrypt_callback_result in Hv as (secret & tag & Hc & Hr & ->).
    now exists buffer, secret, tag, nonce.
  - destruct (this_getMessage _ _ _); discriminate.
Qed.

Lemma length_nonce_hex (w : World) :
  String.length (toString_hex (fst (randomBytes BYTE_COUNT_FOR_IV w)))
  = BYTE_COUNT_FOR_IV * 2.
Proof.
  now rewrite length_toString_hex, length_randomBytes, Nat.mul_comm.
Qed.

(** How [decrypt] takes an envelope apart. *)
Lemma decrypt_envelope (this : Crypto) (iv secret tag : string) :
  String.length iv = BYTE_COUNT_FOR_IV * 2 ->
  all_chars is_ascii iv = true ->
  all_chars (not_char TAG_DELIMITER) iv = true ->
  all_chars (not_char TAG_DELIMITER) secret = true ->
  all_chars (not_char TAG_DELIMITER) tag = true ->
  split TAG_DELIMITER (iv ++ secret ++ String TAG_DELIMITER tag)
    = [iv ++ secret; tag] /\
  decrypt host this (Str (iv ++ secret ++ String TAG_DELIMITER tag)) =
    match _key this with
    | None => Throw TypeError
    | Some cell =>
        SecureBuffer.value cell (decrypt_callback host this tag iv secret)
    end.
Proof.
  intros Hlen Hascii Hiv Hsecret Htag.
  assert (Hsplit : split TAG_DELIMITER (iv ++ secret ++ String TAG_DELIMITER tag)
                   = [iv ++ secret; tag]).
  { rewrite <- append_assoc, split_append, (split_without _ _ Htag);
      [reflexivity|].
    now rewrite all_chars_append, Hiv, Hsecret. }
  split; [exact Hsplit|].
  unfold decrypt. rewrite Hsplit. cbn [List.length Nat.eqb negb nth].
  rewrite (js_substring_head _ iv secret Hascii Hlen).
  rewrite (js_substring_tail _ iv secret Hascii Hlen). reflexivity.
Qed.

(** The [try] block ends in one of three ways. *)
Lemma decrypt_try_cases (tag iv secret : string) (buffer : list byte) :
  (exists m,
      setAuthTag (Buffer_from_hex tag) = Some m /\
      decrypt_try tag iv secret buffer = inl m) \/
  (setAuthTag (Buffer_from_hex tag) = None /\
   Nat.odd (js_length secret) = true /\
   decrypt_try tag iv secret buffer
   = inl (invalid_hex_length (js_length secret))) \/
  (setAuthTag (Buffer_from_hex tag) = None /\
   Nat.odd (js_length secret) = false /\
   decrypt_try tag iv secret buffer
   = decipher_run (cipher_key buffer) (Buffer_from_utf8 iv)
       (Buffer_from_hex tag) (Buffer_from_hex secret)).
Proof.
  unfold decrypt_try.
  destruct (setAuthTag (Buffer_from_hex tag)) as [m|].
  - left. now exists m.
  - right. destruct (Nat.odd (js_length secret)); [left | right]; auto.
Qed.

(** What the [try] block returns, the decipher has returned. *)
Lemma decrypt_try_returns (tag iv secret : string) (buffer dec : list byte) :
  decrypt_try tag iv secret buffer = inr dec ->
  Nat.odd (js_length secret) = false /\
  decipher_run (cipher_key buffer) (Buffer_from_utf8 iv)
    (Buffer_from_hex tag) (Buffer_from_hex secret) = inr dec.
Proof.
  destruct (decrypt_try_cases tag iv secret buffer)
    as [(m & _ & ->) | [(_ & _ & ->) | (_ & Heven & ->)]];
    try discriminate.
  now split.
Qed.

(** A ciphertext with an even number of characters and a tag that the
    decipher accepts are judged by their bytes. *)
Lemma decrypt_try_even (tag iv secret : string) (buffer dec : list byte) :
  Nat.odd (js_length secret) = false ->
  decipher_run (cipher_key buffer) (Buffer_from_utf8 iv)
    (Buffer_from_hex tag) (Buffer_from_hex secret) = inr dec ->
  decrypt_try tag iv secret buffer = inr dec.
Proof.
  intros Heven Hrun. unfold decrypt_try.
  destruct (setAuthTag (Buffer_from_hex tag)) as [m|] eqn:Ht.
  - rewrite (setAuthTag_refuses _ _ _ _ _ Ht) in Hrun. discriminate.
  - now rewrite Heven.
Qed.

Lemma decrypt_try_sealed (buffer : list byte) (iv text : string)
    (secret tag : list byte) :
  createCipheriv (cipher_key buffer) (Buffer_from_utf8 iv) = None ->
  cipher_run (cipher_key buffer) (Buffer_from_utf8 iv)
    (Buffer_from_utf8 text) = (secret, tag) ->
  decrypt_try (toString_hex tag) iv (toString_hex secret) buffer
  = inr (Buffer_from_utf8 text).
Proof.
  intros Hc Hr. apply decrypt_try_even; [apply even_toString_hex|].
  rewrite !Buffer_from_hex_toString_hex.
  exact (decipher_cipher _ _ _ _ _ Hc Hr).
Qed.

(** With the key and the nonce of the encryption, the decipher accepts
    what the cipher produced and [decrypt] hands the text back. *)
Lemma decrypt_callback_sealed (this : Crypto) (buffer : list byte)
    (iv text : string) (secret tag : list byte) :
  createCipheriv (cipher_key buffer) (Buffer_from_utf8 iv) = None ->
  cipher_run (cipher_key buffer) (Buffer_from_utf8 iv)
    (Buffer_from_utf8 text) = (secret, tag) ->
  well_formed text ->
  decrypt_callback host this (toString_hex tag) iv (toString_hex secret) buffer
  = Return (Str text).
Proof.
  intros Hc Hr Hwf. unfold decrypt_callback.
  rewrite Hc, (decrypt_try_sealed buffer iv text secret tag Hc Hr).
  now rewrite toString_utf8_Buffer_from_utf8.
Qed.

Lemma encrypt_succeeds (this : Crypto) (buffer : list byte) (text : string)
    (w : World) :
  _key this = Some (SecureBuffer.Populated buffer) ->
  suite_correct buffer ->
  exists out, encrypt this (Str text) w
              = (Return (Str out), snd (randomBytes BYTE_COUNT_FOR_IV w)).
Proof.
  intros Hk Hkey. unfold encrypt. rewrite Hk.
  destruct (randomBytes BYTE_COUNT_FOR_IV w) as [bytes w'] eqn:Hrand.
  assert (Hlen : List.length bytes = 6).
  { change bytes with (fst (bytes, w')). rewrite <- Hrand.
    apply length_randomBytes. }
  cbn [snd SecureBuffer.value]. unfold encrypt_callback.
  rewrite createCipheriv_ok.
  - destruct (cipher_run _ _ _) as [secret tag]. eauto.
  - exact Hkey.
  - now rewrite length_Buffer_from_utf8, length_toString_hex, Hlen.
Qed.

(** C8: [encrypt(null)] and [decrypt(null)] return [undefined], on every
    instance, whatever its key cell holds (and likewise for an absent
    argument); no exception is raised, nothing is drawn from the random
    source and the key cell is not consulted.  [undefined] is returned
    for no other input: for a string, [encrypt] and [decrypt] either
    throw or return a string. *)
Theorem null_propagation (this : Crypto) (w : World) :
  encrypt this null w = (Return undefined, w) /\
  encrypt this undefined w = (Return undefined, w) /\
  decrypt host this null = Return undefined /\
  decrypt host this undefined = Return undefined /\
  (forall s, fst (encrypt this (Str s) w) <> Return undefined) /\
  (forall s, decrypt host this (Str s) <> Return undefined).
Proof.
  split_and; try reflexivity.
  - intros s H.
    destruct (encrypt this (Str s) w) as [r w'] eqn:E. simpl in H. subst r.
    apply encrypt_result in E as (? & ? & ? & ? & _ & _ & _ & _ & _ & E).
    discriminate.
  - intros s. unfold decrypt.
    destruct (negb _).
    + destruct (this_getMessage this "InvalidEncryptedFormatError" []);
        [|discriminate].
      destruct (this_getMessage this "InvalidEncryptedFormatErrorAction" []);
        discriminate.
    + destruct (_key this) as [[|buffer]|]; try discriminate.
      simpl. unfold decrypt_callback.
      destruct (createCipheriv _ _); [discriminate|].
      destruct (decrypt_try _ _ _ _); [|discriminate].
      destruct (this_getMessage _ _ _); discriminate.
Qed.

Lemma decrypt_callback_names (this : Crypto) (tag iv secret : string)
    (buffer : list byte) (e : Exception) :
  decrypt_callback host this tag iv secret buffer = Throw e ->
  error_name e = "Error" \/ error_name e = "TypeError".
Proof.
  unfold decrypt_callback.
  destruct (createCipheriv _ _); [intros [= <-]; now left|].
  destruct (decrypt_try _ _ _ _); [|discriminate].
  unfold this_getMessage. destruct (messages this); intros [= <-]; auto.
Qed.

(** The error [decrypt] throws at a string that does not split into two
    segments. *)
Lemma decrypt_wrong_segments (this : Crypto) (m : Messages) (s : string) :
  messages this = Some m ->
  List.length (split TAG_DELIMITER s) <> 2 ->
  decrypt host this (Str s)
  = Throw (SfdxError (getMessage m "InvalidEncryptedFormatError" [])
             "InvalidEncryptedFormatError"
             [getMessage m "InvalidEncryptedFormatErrorAction" []]).
Proof.
  intros Hm Hn. unfold decrypt, this_getMessage. rewrite Hm.
  apply Nat.eqb_neq in Hn. now rewrite Hn.
Qed.

(** No other path of [decrypt] throws an error of that name. *)
Lemma decrypt_two_segments (this : Crypto) (s : string) :
  List.length (split TAG_DELIMITER s) = 2 ->
  ~ fails_with (decrypt host this (Str s)) "InvalidEncryptedFormatError".
Proof.
  intros Hlen (e & He & Hname).
  unfold decrypt in He. rewrite Hlen in He. cbn [Nat.eqb negb] in He.
  destruct (_key this) as [[|buffer]|].
  - injection He as <-. discriminate.
  - cbn [SecureBuffer.value] in He.
    apply decrypt_callback_names in He as [H|H];
      rewrite H in Hname; discriminate.
  - injection He as <-. discriminate.
Qed.

(** C5: on an instance whose message bundle is loaded (the first thing
    [init] does), [decrypt] of a string fails with
    [InvalidEncryptedFormatError] exactly when splitting the string on
    [':'] does not give two segments.  ["no-delimiter-here"] gives one
    segment and ["a:b:c"] three. *)
Theorem decrypt_invalid_format (this : Crypto) (m : Messages) (s : string) :
  messages this = Some m ->
  (fails_with (decrypt host this (Str s)) "InvalidEncryptedFormatError"
   <-> List.length (split TAG_DELIMITER s) <> 2) /\
  (List.length (split TAG_DELIMITER s) <> 2 ->
   decrypt host this (Str s)
   = Throw (SfdxError (getMessage m "InvalidEncryptedFormatError" [])
              "InvalidEncryptedFormatError"
              [getMessage m "InvalidEncryptedFormatErrorAction" []])) /\
  List.length (split TAG_DELIMITER "no-delimiter-here") = 1 /\
  List.length (split TAG_DELIMITER "a:b:c") = 3.
Proof.
  intros Hm.
  split; [split | split_and; try reflexivity;
                  exact (decrypt_wrong_segments this m s Hm)].
  - intros Hfail Hlen. exact (decrypt_two_segments this s Hlen Hfail).
  - intros Hn. eexists.
    split; [exact (decrypt_wrong_segments this m s Hm Hn) | reflexivity].
Qed.

(** C7: the string [encrypt] returns for a text is
    [nonce_hex ++ ciphertext_hex ++ ":" ++ tag_hex], where the nonce is
    the six bytes drawn from the random source, written as 12
    hexadecimal characters, and the rest are the ciphertext and the tag
    the cipher produced; all characters but the delimiter are
    hexadecimal digits, so the delimiter occurs once.  [decrypt] splits
    it into these two segments and hands the key cell the function that
    deciphers with the second segment as tag, the first 12 characters
    of the first as nonce and the remainder as ciphertext. *)
Theorem envelope_format (this : Crypto) (text : string) (w w' : World)
    (v : JsValue) :
  encrypt this (Str text) w = (Return v, w') ->
  exists (buffer secret tag : list byte),
    let nonce := fst (randomBytes BYTE_COUNT_FOR_IV w) in
    let out := toString_hex nonce ++ toString_hex secret
                 ++ String ":" (toString_hex tag) in
    v = Str out /\
    List.length nonce = 6 /\
    String.length (toString_hex nonce) = 12 /\
    all_chars is_hex_digit
      (toString_hex nonce ++ toString_hex secret ++ toString_hex tag) = true /\
    cipher_run (cipher_key buffer) (Buffer_from_utf8 (toString_hex nonce))
      (Buffer_from_utf8 text) = (secret, tag) /\
    occurrences ":" out = 1 /\
    split ":" out
      = [toString_hex nonce ++ toString_hex secret; toString_hex tag] /\
    _key this = Some (SecureBuffer.Populated buffer) /\
    decrypt host this (Str out)
    = decrypt_callback host this (toString_hex tag) (toString_hex nonce)
        (toString_hex secret) buffer.
Proof.
  intros H.
  apply encrypt_result in H
    as (buffer & secret & tag & nonce & Hnonce & Hk & _ & _ & Hr & ->).
  exists buffer, secret, tag. cbv zeta. rewrite <- Hnonce.
  destruct (decrypt_envelope this (toString_hex nonce) (toString_hex secret)
              (toString_hex tag)) as [Hsplit Hdec];
    try apply toString_hex_no_delimiter; try apply toString_hex_ascii.
  { rewrite Hnonce. apply length_nonce_hex. }
  change TAG_DELIMITER with ":"%char in *.
  split_and.
  - reflexivity.
  - rewrite Hnonce. apply length_randomBytes.
  - rewrite Hnonce. apply length_nonce_hex.
  - now rewrite !all_chars_append, !toString_hex_digits.
  - exact Hr.
  - pose proof (length_split ":" (toString_hex nonce ++ toString_hex secret
                                    ++ String ":" (toString_hex tag))) as L.
    rewrite Hsplit in L. cbn [List.length] in L. lia.
  - exact Hsplit.
  - exact Hk.
  - rewrite Hdec, Hk. reflexivity.
Qed.

(** An envelope [encrypt] returned for a well-formed text opens to that
    text, on the same instance. *)
Lemma envelope_opens (this : Crypto) (s : string) (w w' : World)
    (v : JsValue) :
  encrypt this (Str s) w = (Return v, w') ->
  well_formed s ->
  decrypt host this v = Return (Str s).
Proof.
  intros Henc Hwf.
  apply encrypt_result in Henc
    as (buffer & secret & tag & nonce & Hnonce & Hk & _ & Hc & Hr & ->).
  destruct (decrypt_envelope this (toString_hex nonce)
              (toString_hex secret) (toString_hex tag)) as [_ Hdec];
    try apply toString_hex_no_delimiter; try apply toString_hex_ascii.
  { rewrite Hnonce. apply length_nonce_hex. }
  rewrite Hdec, Hk. cbn [SecureBuffer.value].
  now apply decrypt_callback_sealed.
Qed.

(** C3: on an instance whose key cell holds a key the suite accepts,
    [encrypt] returns an envelope for every well-formed text, and
    [decrypt] of that envelope returns the text. *)
Theorem decrypt_encrypt (this : Crypto) (buffer : list byte) (s : string)
    (w : World) :
  _key this = Some (SecureBuffer.Populated buffer) ->
  suite_correct buffer ->
  well_formed s ->
  exists out w',
    encrypt this (Str s) w = (Return (Str out), w') /\
    decrypt host this (Str out) = Return (Str s).
Proof.
  intros Hk Hkey Hwf.
  destruct (encrypt_succeeds this buffer s w Hk Hkey) as [out Henc].
  exists out, (snd (randomBytes BYTE_COUNT_FOR_IV w)).
  split; [exact Henc|].
  exact (envelope_opens this s w _ (Str out) Henc Hwf).
Qed.

End CipherProperties.

(** ** Key acquisition *)

(** What [init] does on a system where it gets its logger: the logger of
    this part is [logger_ready]. *)

Section KeyAcquisition.

Variable host : Host.

Lemma key_init_fields (this : Crypto) :
  _key (init_fields host this) = _key this.
Proof. unfold init_fields. now destruct (negb _). Qed.

Lemma messages_init_fields (this : Crypto) :
  messages (init_fields host this)
  = Some (loadMessages "@salesforce/core" "encryption").
Proof. reflexivity. Qed.

Lemma noResetOnClose_init_fields (this : Crypto) :
  noResetOnClose (init_fields host this)
  = Some (Options.noResetOnClose (options this)).
Proof. unfold init_fields. now destruct (negb _). Qed.

Lemma key_prepared (this : Crypto) : _key (prepared host this) = _key this.
Proof.
  unfold prepared, getKeyChain.
  destruct (Options.keychain _); [apply key_init_fields|].
  destruct (retrieveKeychain _ _); apply key_init_fields.
Qed.

Lemma messages_prepared (this : Crypto) :
  messages (prepared host this)
  = Some (loadMessages "@salesforce/core" "encryption").
Proof.
  unfold prepared, getKeyChain.
  destruct (Options.keychain _); [reflexivity|].
  destruct (retrieveKeychain _ _); reflexivity.
Qed.

Lemma noResetOnClose_prepared (this : Crypto) :
  noResetOnClose (prepared host this)
  = Some (Options.noResetOnClose (options this)) /\
  Options.noResetOnClose (options (prepared host this))
  = Options.noResetOnClose (options this).
Proof.
  unfold prepared, getKeyChain, init_fields.
  destruct (negb _); simpl; destruct (Options.keychain _); simpl; auto;
    destruct (retrieveKeychain _ _); simpl; auto.
Qed.

Lemma retryStatus_prepared (this : Crypto) :
  retryStatus_is_KEY_SET (prepared host this) = retryStatus_is_KEY_SET this.
Proof.
  unfold prepared, getKeyChain, init_fields, retryStatus_is_KEY_SET.
  destruct (negb _); simpl; destruct (Options.keychain _); simpl; auto;
    destruct (retrieveKeychain _ _); simpl; auto.
Qed.

Lemma getKeyChain_in_use (this : Crypto) (kc : Keychain) :
  keychain_in_use host this = inr kc ->
  getKeyChain host (this_options_platform (init_fields host this))
    (init_fields host this) = (Return kc, prepared host this) /\
  Options.keychain (options (prepared host this)) = Some kc.
Proof.
  unfold keychain_in_use, prepared, getKeyChain.
  assert (E : Options.keychain (options (init_fields host this))
              = Options.keychain (options this)).
  { unfold init_fields. now destruct (negb _). }
  rewrite E. destruct (Options.keychain (options this)) as [k|].
  - intros H. injection H as ->. cbn [snd]. now rewrite E.
  - intros ->. cbn [snd]. split; reflexivity.
Qed.

Lemma keychain_in_use_prepared (this : Crypto) (kc : Keychain) :
  keychain_in_use host this = inr kc ->
  keychain_in_use host (prepared host this) = inr kc.
Proof.
  intros H. apply getKeyChain_in_use in H as [_ H].
  unfold keychain_in_use. now rewrite H.
Qed.

(** The [try] block, for an instance with a key cell and a keychain. *)
Lemma init_try_get (this : Crypto) (cell : SecureBuffer.t) (kc : Keychain)
    (w : World) :
  _key this = Some cell ->
  keychain_in_use host this = inr kc ->
  init_try host (init_fields host this) w =
    match kc_getPassword kc (calls w) KEY_NAME ACCOUNT with
    | inl err =>
        (Throw err, prepared host this,
         record_call (GetPassword KEY_NAME ACCOUNT) w)
    | inr password =>
        (Return tt,
         with_key (SecureBuffer.Populated (Buffer_from_utf8 password))
           (prepared host this),
         record_call (GetPassword KEY_NAME ACCOUNT) w)
    end.
Proof.
  intros Hk Hkc. unfold init_try. rewrite key_init_fields, Hk.
  destruct (getKeyChain_in_use this kc Hkc) as [-> _].
  unfold keychainPromises.getPassword.
  now destruct (kc_getPassword kc (calls w) KEY_NAME ACCOUNT).
Qed.

Lemma calls_provisioned (w : World) :
  calls (provisioned w)
  = (calls w ++ [GetPassword KEY_NAME ACCOUNT;
                 SetPassword KEY_NAME ACCOUNT (fresh_key w)])%list.
Proof. unfold provisioned. simpl. now rewrite <- app_assoc. Qed.

(** An activation that finds no password, has not been told that a key
    was set, and stores a new key, ends in a new activation. *)
Lemma init_not_found (fuel : nat) (this : Crypto) (cell : SecureBuffer.t)
    (kc : Keychain) (w : World) :
  _key this = Some cell ->
  keychain_in_use host this = inr kc ->
  retryStatus_is_KEY_SET this = false ->
  not_found (kc_getPassword kc (calls w) KEY_NAME ACCOUNT) ->
  kc_setPassword kc (calls w ++ [GetPassword KEY_NAME ACCOUNT])
    KEY_NAME ACCOUNT (fresh_key w) = None ->
  init (S fuel) host this w
  = init fuel host (prepared host this) (provisioned w).
Proof.
  intros Hk Hkc Hretry (err & Hget & Hname) Hset.
  cbn [init Logger_child logger_ready]. rewrite (init_try_get this cell kc w Hk Hkc), Hget, Hname.
  cbn [String.eqb Ascii.eqb Bool.eqb].
  rewrite retryStatus_prepared, Hretry.
  destruct (getKeyChain_in_use this kc Hkc) as [_ ->].
  unfold keychainPromises.setPassword.
  cbn [randomBytes record_call calls entropy drawn].
  unfold fresh_key in Hset. cbn [randomBytes fst] in Hset.
  rewrite Hset. reflexivity.
Qed.

(** An activation that finds a password loads it and returns. *)
Lemma init_found (fuel : nat) (this : Crypto) (cell : SecureBuffer.t)
    (kc : Keychain) (w : World) (password : string) :
  _key this = Some cell ->
  keychain_in_use host this = inr kc ->
  kc_getPassword kc (calls w) KEY_NAME ACCOUNT = inr password ->
  init (S fuel) host this w
  = (Some (Return tt),
     with_key (SecureBuffer.Populated (Buffer_from_utf8 password))
       (prepared host this),
     record_call (GetPassword KEY_NAME ACCOUNT) w).
Proof.
  intros Hk Hkc Hget.
  cbn [init Logger_child logger_ready]. now rewrite (init_try_get this cell kc w Hk Hkc), Hget.
Qed.

(** An activation that has been told that a key was set gives up. *)
Lemma init_bails (fuel : nat) (this : Crypto) (cell : SecureBuffer.t)
    (kc : Keychain) (w : World) (err : Exception) :
  _key this = Some cell ->
  keychain_in_use host this = inr kc ->
  retryStatus_is_KEY_SET this = true ->
  kc_getPassword kc (calls w) KEY_NAME ACCOUNT = inl err ->
  error_name err = "PasswordNotFoundError" ->
  init (S fuel) host this w
  = (Some (Throw err), prepared host this,
     record_call (GetPassword KEY_NAME ACCOUNT) w).
Proof.
  intros Hk Hkc Hretry Hget Hname.
  cbn [init Logger_child logger_ready]. rewrite (init_try_get this cell kc w Hk Hkc), Hget, Hname.
  cbn [String.eqb Ascii.eqb Bool.eqb].
  now rewrite retryStatus_prepared, Hretry.
Qed.

Lemma count_getPassword_app (a b : list Call) :
  count_getPassword (a ++ b) = count_getPassword a + count_getPassword b.
Proof. unfold count_getPassword. now rewrite filter_app, length_app. Qed.

Lemma count_setPassword_app (a b : list Call) :
  count_setPassword (a ++ b) = count_setPassword a + count_setPassword b.
Proof. unfold count_setPassword. now rewrite filter_app, length_app. Qed.

Lemma length_fresh_key (w : World) : String.length (fresh_key w) = 32.
Proof.
  unfold fresh_key. now rewrite length_toString_hex, length_randomBytes.
Qed.

(** C1: the code does not do what the claim says.  When every
    [getPassword] reports that there is no password and every
    [setPassword] succeeds, an [init] started with [retryStatus] unset
    never returns and never throws: nothing assigns [retryStatus], so
    every activation stores one more key and starts the next.  However
    many activations are allowed, the run is unfinished after them, and
    it has made that many [getPassword] and that many [setPassword]
    calls. *)
Theorem init_never_gives_up (kc : Keychain) :
  (forall log, not_found (kc_getPassword kc log KEY_NAME ACCOUNT)) ->
  (forall log key, kc_setPassword kc log KEY_NAME ACCOUNT key = None) ->
  forall (fuel : nat) (this : Crypto) (w : World),
    _key this <> None ->
    keychain_in_use host this = inr kc ->
    retryStatus_is_KEY_SET this = false ->
    exists this' w',
      init fuel host this w = (None, this', w') /\
      count_getPassword (calls w') = count_getPassword (calls w) + fuel /\
      count_setPassword (calls w') = count_setPassword (calls w) + fuel.
Proof.
  intros Hget Hset. induction fuel as [|fuel IH]; intros this w Hk Hkc Hretry.
  - exists this, w. cbn [init Logger_child logger_ready]. split; [reflexivity | split; lia].
  - destruct (_key this) as [cell|] eqn:Hcell; [clear Hk | now elim Hk].
    rewrite (init_not_found fuel this cell kc w Hcell Hkc Hretry
               (Hget _) (Hset _ _)).
    destruct (IH (prepared host this) (provisioned w)) as (this' & w' & E & Hg & Hs).
    + rewrite key_prepared, Hcell. discriminate.
    + now apply keychain_in_use_prepared.
    + now rewrite retryStatus_prepared.
    + exists this', w'. split; [exact E|].
      rewrite Hg, Hs, calls_provisioned.
      rewrite count_getPassword_app, count_setPassword_app.
      unfold count_getPassword, count_setPassword. simpl. lia.
Qed.

(** C6: when the first [getPassword] finds no password, the
    [setPassword] that follows succeeds and the [getPassword] after it
    returns what was stored, an [init] started with [retryStatus] unset
    returns after exactly these three calls: the key stored is 16
    bytes drawn from the random source, written as 32 hexadecimal
    characters, and the key cell holds it when [init] returns. *)
Theorem init_provisions_key (kc : Keychain) (this : Crypto) (w : World) :
  _key this <> None ->
  keychain_in_use host this = inr kc ->
  retryStatus_is_KEY_SET this = false ->
  not_found (kc_getPassword kc (calls w) KEY_NAME ACCOUNT) ->
  kc_setPassword kc (calls w ++ [GetPassword KEY_NAME ACCOUNT])
    KEY_NAME ACCOUNT (fresh_key w) = None ->
  kc_getPassword kc
    (calls w ++ [GetPassword KEY_NAME ACCOUNT;
                 SetPassword KEY_NAME ACCOUNT (fresh_key w)])
    KEY_NAME ACCOUNT = inr (fresh_key w) ->
  exists this' w',
    (forall fuel, 2 <= fuel ->
       init fuel host this w = (Some (Return tt), this', w')) /\
    calls w' = (calls w ++ [GetPassword KEY_NAME ACCOUNT;
                            SetPassword KEY_NAME ACCOUNT (fresh_key w);
                            GetPassword KEY_NAME ACCOUNT])%list /\
    fresh_key w = toString_hex (map (entropy w) (seq (drawn w) 16)) /\
    String.length (fresh_key w) = 32 /\
    all_chars is_hex_digit (fresh_key w) = true /\
    _key this'
    = Some (SecureBuffer.Populated (Buffer_from_utf8 (fresh_key w))).
Proof.
  intros Hk Hkc Hretry Hmiss Hset Hhit.
  destruct (_key this) as [cell|] eqn:Hcell; [clear Hk | now elim Hk].
  exists (with_key (SecureBuffer.Populated (Buffer_from_utf8 (fresh_key w)))
            (prepared host (prepared host this))),
         (record_call (GetPassword KEY_NAME ACCOUNT) (provisioned w)).
  split_and.
  - intros [|[|fuel]] Hfuel; try lia.
    rewrite (init_not_found _ this cell kc w Hcell Hkc Hretry Hmiss Hset).
    apply init_found with (cell := cell) (kc := kc).
    + now rewrite key_prepared.
    + now apply keychain_in_use_prepared.
    + now rewrite calls_provisioned.
  - cbn [record_call calls]. rewrite calls_provisioned, <- app_assoc.
    reflexivity.
  - reflexivity.
  - apply length_fresh_key.
  - apply toString_hex_digits.
  - reflexivity.
Qed.

End KeyAcquisition.

(** ** The life of an instance *)

Section Lifecycle.

Context {suite : Aes256Gcm}.
Variable host : Host.

Lemma key_init {logger : Logger} (fuel : nat) (this : Crypto) (w : World) :
  _key this <> None -> _key (snd (fst (init fuel host this w))) <> None.
Proof.
  revert this w. induction fuel as [|fuel IH]; intros this w Hk; [exact Hk|].
  cbn [init]. destruct (Logger_child "crypto"); [exact Hk|].
  unfold init_try. rewrite key_init_fields.
  destruct (_key this) as [cell|] eqn:Hcell; [clear Hk | now elim Hk].
  destruct (getKeyChain host _ (init_fields host this)) as [[k|err] this1] eqn:Hg.
  - assert (H1 : _key this1 = Some cell).
    { change this1 with (snd (Return k, this1)). rewrite <- Hg.
      fold (prepared host this). now rewrite key_prepared. }
    destruct (keychainPromises.getPassword k KEY_NAME ACCOUNT w)
      as [[[u password]|err] w1].
    + simpl. discriminate.
    + destruct (String.eqb (error_name err) "PasswordNotFoundError").
      * destruct (retryStatus_is_KEY_SET this1); [simpl; congruence|].
        destruct (randomBytes 16 w1) as [bytes w2].
        destruct (Options.keychain (options this1)); [|simpl; congruence].
        destruct (keychainPromises.setPassword _ _ _ _ _) as [[?|?] w3];
          [|simpl; congruence].
        apply IH. congruence.
      * simpl. congruence.
  - assert (H1 : _key this1 = Some cell).
    { change this1 with (snd (@Throw Keychain err, this1)). rewrite <- Hg.
      fold (prepared host this). now rewrite key_prepared. }
    destruct (String.eqb (error_name err) "PasswordNotFoundError").
    + destruct (retryStatus_is_KEY_SET this1); [simpl; congruence|].
      destruct (randomBytes 16 w) as [bytes w2].
      destruct (Options.keychain (options this1)); [|simpl; congruence].
      destruct (keychainPromises.setPassword _ _ _ _ _) as [[?|?] w3];
        [|simpl; congruence].
      apply IH. congruence.
    + simpl. congruence.
Qed.

(** The field [_key] is assigned by the constructor only. *)
Lemma reachable_key (this : Crypto) : Reachable host this -> _key this <> None.
Proof.
  induction 1
    as [opts | logger this fuel w _ IH | this platform _ IH | this _ IH].
  - discriminate.
  - now apply key_init.
  - unfold getKeyChain. destruct (Options.keychain _); [exact IH|].
    now destruct (retrieveKeychain _ _).
  - unfold close. destruct (negb _); [|exact IH].
    destruct (_key this); [discriminate | now elim IH].
Qed.

(** C10: the constructor puts a key cell in [_key] and no method assigns
    the field afterwards, so [_key] is never [null] on an instance
    reached through the constructor, [init], [getKeyChain] and [close]:
    the guard [this._key == null] of [encrypt] does not fire, and
    [encrypt] never fails with [KeychainPasswordCreationError]. *)
Theorem key_never_null (this : Crypto) :
  Reachable host this ->
  _key this <> None /\
  forall text w,
    ~ fails_with (fst (encrypt this text w)) "KeychainPasswordCreationError".
Proof.
  intros Hreach. pose proof (reachable_key this Hreach) as Hk.
  split; [exact Hk|].
  intros text w (e & He & Hname).
  destruct text as [| |s]; try discriminate.
  unfold encrypt in He.
  destruct (_key this) as [[|buffer]|]; [| |now elim Hk].
  - simpl in He. injection He as <-. discriminate.
  - simpl in He. apply encrypt_callback_fails in He.
    rewrite He in Hname. discriminate.
Qed.

(** What [init] leaves behind when it returns. *)
Lemma init_returns (fuel : nat) (this this' : Crypto) (w w' : World) :
  init fuel host this w = (Some (Return tt), this', w') ->
  (exists password,
      _key this' = Some (SecureBuffer.Populated (Buffer_from_utf8 password))) /\
  messages this' = Some (loadMessages "@salesforce/core" "encryption") /\
  noResetOnClose this' = Some (Options.noResetOnClose (options this)).
Proof.
  revert this w. induction fuel as [|fuel IH]; intros this w; [discriminate|].
  cbn [init Logger_child logger_ready].
  unfold init_try. rewrite key_init_fields.
  destruct (_key this) as [cell|] eqn:Hcell; [|simpl; discriminate].
  fold (prepared host this).
  pose proof (messages_prepared host this) as Hm.
  pose proof (noResetOnClose_prepared host this) as [Hn Hno].
  unfold prepared in Hm, Hn, Hno.
  destruct (getKeyChain host _ (init_fields host this)) as [[k|err] this1].
  - simpl in Hm, Hn, Hno.
    destruct (keychainPromises.getPassword k KEY_NAME ACCOUNT w)
      as [[[u password]|err] w1].
    + intros [= <- <-]. cbn [with_key _key messages noResetOnClose].
      split_and; [now exists password | exact Hm | exact Hn].
    + destruct (String.eqb (error_name err) "PasswordNotFoundError");
        [|discriminate].
      destruct (retryStatus_is_KEY_SET this1); [discriminate|].
      destruct (randomBytes 16 w1) as [bytes w2].
      destruct (Options.keychain (options this1)); [|discriminate].
      destruct (keychainPromises.setPassword _ _ _ _ _) as [[?|?] w3];
        [|discriminate].
      intros H. apply IH in H as (Hp & Hm' & Hn').
      split_and; try assumption. now rewrite Hn', Hno.
  - simpl in Hm, Hn, Hno.
    destruct (String.eqb (error_name err) "PasswordNotFoundError");
      [|discriminate].
    destruct (retryStatus_is_KEY_SET this1); [discriminate|].
    destruct (randomBytes 16 w) as [bytes w2].
    destruct (Options.keychain (options this1)); [|discriminate].
    destruct (keychainPromises.setPassword _ _ _ _ _) as [[?|?] w3];
      [|discriminate].
    intros H. apply IH in H as (Hp & Hm' & Hn').
    split_and; try assumption. now rewrite Hn', Hno.
Qed.

(** What [Crypto.create] resolves to is an instance the methods lead to,
    with a key in its cell and its messages loaded. *)
Lemma created_ready (opts : option Options.t) (w w' : World) (this : Crypto) :
  created host opts w this w' ->
  Reachable host this /\
  (exists password,
      _key this = Some (SecureBuffer.Populated (Buffer_from_utf8 password))) /\
  messages this = Some (loadMessages "@salesforce/core" "encryption").
Proof.
  intros [fuel Hinit]. split.
  - replace this with (snd (fst (init fuel host (constructor opts) w)))
      by now rewrite Hinit.
    apply reach_init, reach_constructor.
  - apply init_returns in Hinit as (Hk & Hm & _). now split.
Qed.

(** C9: on an instance created with the option [noResetOnClose] set,
    whose [init] returned, the key cell holds a key and [close()]
    changes nothing: the cell holds the same bytes afterwards, every
    [encrypt] and [decrypt] behaves as it did before, and when the key
    is one the suite accepts [encrypt] still returns an envelope for
    every well-formed text and [decrypt] still returns the text. *)
Theorem close_keeps_key (opts : Options.t) (w w1 : World) (this : Crypto) :
  Options.noResetOnClose opts = true ->
  created host (Some opts) w this w1 ->
  exists buffer,
    _key this = Some (SecureBuffer.Populated buffer) /\
    close this = (Return tt, this) /\
    _key (snd (close this)) = Some (SecureBuffer.Populated buffer) /\
    (forall text w2,
        encrypt (snd (close this)) text w2 = encrypt this text w2) /\
    (forall text,
        decrypt host (snd (close this)) text = decrypt host this text) /\
    (suite_correct buffer ->
     forall s w2, well_formed s ->
       exists out w3,
         encrypt (snd (close this)) (Str s) w2 = (Return (Str out), w3) /\
         decrypt host (snd (close this)) (Str out) = Return (Str s)).
Proof.
  intros Hopt [fuel Hinit].
  apply init_returns in Hinit as ((password & Hk) & _ & Hn).
  simpl in Hn. rewrite Hopt in Hn.
  assert (Hclose : close this = (Return tt, this)).
  { unfold close. now rewrite Hn. }
  exists (Buffer_from_utf8 password). rewrite Hclose. simpl snd.
  split_and; auto.
  intros Hkey s w2 Hwf.
  destruct (encrypt_succeeds this (Buffer_from_utf8 password) s w2 Hk Hkey)
    as [out Henc].
  exists out, (snd (randomBytes BYTE_COUNT_FOR_IV w2)).
  split; [exact Henc|].
  exact (envelope_opens host this s w2 _ (Str out) Henc Hwf).
Qed.

(** What an error [decrypt] throws can be called. *)
Lemma decrypt_names (this : Crypto) (s : string) (e : Exception) :
  decrypt host this (Str s) = Throw e ->
  error_name e = "InvalidEncryptedFormatError" \/
  error_name e = "TypeError" \/
  error_name e = "NoKeyLoaded" \/
  error_name e = "Error".
Proof.
  unfold decrypt. destruct (negb _).
  - unfold this_getMessage. destruct (messages this).
    + intros H. injection H as <-. now left.
    + intros H. injection H as <-. right. now left.
  - destruct (_key this) as [[|buffer]|].
    + intros H. injection H as <-. right. right. now left.
    + cbn [SecureBuffer.value]. intros H.
      apply decrypt_callback_names in H as [H|H]; auto.
    + intros H. injection H as <-. right. now left.
Qed.

(** C2: the code does not do what the claim says.  The only check for a
    missing key is the guard [this._key == null] of [encrypt], which is
    to throw [KeychainPasswordCreationError]; [decrypt] has none.
    [close()] clears the key cell and leaves the field [_key] as it is:
    after [close()] the field still holds the cell, the guard does not
    fire, and [encrypt] of a string draws a nonce and asks the cleared
    cell for the key, as [decrypt] does for a string of two segments.
    What is thrown then is for the key cell and the cipher to decide;
    it is never the error of the guard. *)
Theorem closed_guard_dead (this : Crypto) :
  Reachable host this ->
  truthy_bool (noResetOnClose this) = false ->
  exists cell,
    _key this = Some cell /\
    close this = (Return tt, with_key (SecureBuffer.clear cell) this) /\
    (forall s w,
        encrypt (snd (close this)) (Str s) w
        = (SecureBuffer.value (SecureBuffer.clear cell)
             (encrypt_callback s
                (toString_hex (fst (randomBytes BYTE_COUNT_FOR_IV w)))),
           snd (randomBytes BYTE_COUNT_FOR_IV w))) /\
    (forall s w,
        ~ fails_with (fst (encrypt (snd (close this)) (Str s) w))
            "KeychainPasswordCreationError") /\
    (forall s,
        ~ fails_with (decrypt host (snd (close this)) (Str s))
            "KeychainPasswordCreationError").
Proof.
  intros Hreach Hn.
  pose proof (reachable_key this Hreach) as Hk.
  destruct (_key this) as [cell|] eqn:Hcell; [clear Hk | now elim Hk].
  assert (Hclose : close this
                   = (Return tt, with_key (SecureBuffer.clear cell) this)).
  { unfold close. now rewrite Hn, Hcell. }
  exists cell. rewrite Hclose. cbn [snd].
  assert (Henc : forall s w,
             encrypt (with_key (SecureBuffer.clear cell) this) (Str s) w
             = (SecureBuffer.value (SecureBuffer.clear cell)
                  (encrypt_callback s
                     (toString_hex (fst (randomBytes BYTE_COUNT_FOR_IV w)))),
                snd (randomBytes BYTE_COUNT_FOR_IV w))).
  { intros s w. unfold encrypt. cbn [with_key _key].
    now destruct (randomBytes BYTE_COUNT_FOR_IV w). }
  split_and.
  - reflexivity.
  - reflexivity.
  - exact Henc.
  - intros s w (e & He & Hname). rewrite Henc in He. cbn [fst] in He.
    destruct (SecureBuffer.clear cell) as [|buffer];
      cbn [SecureBuffer.value] in He.
    + injection He as <-. discriminate.
    + apply encrypt_callback_fails in He. rewrite He in Hname. discriminate.
  - intros s (e & He & Hname).
    apply decrypt_names in He as [H|[H|[H|H]]];
      rewrite H in Hname; discriminate.
Qed.

End Lifecycle.

(** ** Envelopes that were changed *)

Lemma occurrences_append (sep : ascii) (a b : string) :
  occurrences sep (a ++ b) = occurrences sep a + occurrences sep b.
Proof.
  induction a as [|c a IH]; simpl; [reflexivity|]. rewrite IH. lia.
Qed.

Lemma occurrences_zero (sep : ascii) (s : string) :
  occurrences sep s = 0 <-> all_chars (not_char sep) s = true.
Proof.
  induction s as [|c s IH]; simpl; [tauto|].
  unfold not_char at 1. destruct (Ascii.eqb c sep); simpl.
  - split; [lia | discriminate].
  - exact IH.
Qed.

Section Tampering.

Context {suite : Aes256Gcm}.
Variable host : Host.

(** The two ways [decrypt] ends once the decipher has been created. *)
Lemma decrypt_callback_cases (this : Crypto) (m : Messages)
    (tag iv secret : string) (buffer : list byte) :
  messages this = Some m ->
  createCipheriv (cipher_key buffer) (Buffer_from_utf8 iv) = None ->
  (exists dec,
      decrypt_try tag iv secret buffer = inr dec /\
      decrypt_callback host this tag iv secret buffer
      = Return (Str (toString_utf8 dec))) \/
  (exists cause,
      decrypt_try tag iv secret buffer = inl cause /\
      is_DecryptionError this
        (decrypt_callback host this tag iv secret buffer)).
Proof.
  intros Hm Hc. unfold decrypt_callback. rewrite Hc.
  destruct (decrypt_try _ _ _ _) as [cause|dec].
  - right. exists cause. split; [reflexivity|].
    unfold this_getMessage. rewrite Hm.
    eexists m, cause, _. split; [exact Hm | reflexivity].
  - left. now exists dec.
Qed.

(** C4, as the code has it.  Take the envelope [encrypt] returned for a
    text, keep its nonce, and put any strings in place of its
    ciphertext and of its tag.  If the new strings contain a [':'],
    [decrypt] fails with [InvalidEncryptedFormatError].  Otherwise a
    ciphertext with an odd number of characters makes [decrypt] fail
    with the decryption error, and of one with an even number [decrypt]
    looks only at the bytes the strings decode to: it either fails with
    the decryption error or returns the decoding, as UTF-8, of bytes
    that the cipher, with the same key and nonce, encrypts to the
    ciphertext given, with a tag that starts with the tag given; it
    never returns what the tag does not vouch for.  It returns the
    original text when the number of characters is even and the bytes
    are the original ones, and it fails with the decryption error when
    the ciphertext bytes are the original ones and the tag bytes, as
    many as before, are not. *)
Theorem tampered_envelope (this : Crypto) (m : Messages) (text : string)
    (w w' : World) (v : JsValue) :
  messages this = Some m ->
  encrypt this (Str text) w = (Return v, w') ->
  exists (buffer nonce secret tag : list byte),
    v = Str (toString_hex nonce ++ toString_hex secret
               ++ String ":" (toString_hex tag)) /\
    cipher_run (cipher_key buffer) (Buffer_from_utf8 (toString_hex nonce))
      (Buffer_from_utf8 text) = (secret, tag) /\
    forall secret' tag' : string,
      let tampered :=
        Str (toString_hex nonce ++ secret' ++ String ":" tag') in
      (occurrences ":" secret' + occurrences ":" tag' <> 0 ->
       fails_with (decrypt host this tampered)
         "InvalidEncryptedFormatError") /\
      (occurrences ":" secret' + occurrences ":" tag' = 0 ->
       (Nat.odd (js_length secret') = true ->
        is_DecryptionError this (decrypt host this tampered)) /\
       (is_DecryptionError this (decrypt host this tampered) \/
        exists text' tag'',
          Nat.odd (js_length secret') = false /\
          cipher_run (cipher_key buffer)
            (Buffer_from_utf8 (toString_hex nonce)) text'
          = (Buffer_from_hex secret', tag'') /\
          firstn (List.length (Buffer_from_hex tag')) tag''
          = Buffer_from_hex tag' /\
          decrypt host this tampered = Return (Str (toString_utf8 text'))) /\
       (well_formed text ->
        Nat.odd (js_length secret') = false ->
        Buffer_from_hex secret' = secret -> Buffer_from_hex tag' = tag ->
        decrypt host this tampered = Return (Str text)) /\
       (Buffer_from_hex secret' = secret ->
        List.length (Buffer_from_hex tag') = List.length tag ->
        Buffer_from_hex tag' <> tag ->
        is_DecryptionError this (decrypt host this tampered))).
Proof.
  intros Hm Henc.
  apply encrypt_result in Henc
    as (buffer & secret & tag & nonce & Hnonce & Hk & _ & Hc & Hr & ->).
  exists buffer, nonce, secret, tag.
  change TAG_DELIMITER with ":"%char.
  split; [reflexivity|]. split; [exact Hr|].
  intros secret' tag' tampered. subst tampered.
  assert (Hlen : String.length (toString_hex nonce) = BYTE_COUNT_FOR_IV * 2).
  { rewrite Hnonce. apply length_nonce_hex. }
  split.
  - (* a delimiter too many *)
    intros Hocc.
    assert (Hsegments :
              List.length (split TAG_DELIMITER
                             (toString_hex nonce ++ secret' ++ String ":" tag'))
              <> 2).
    { rewrite length_split, !occurrences_append.
      cbn [occurrences]. change TAG_DELIMITER with ":"%char.
      rewrite Ascii.eqb_refl.
      pose proof (proj2 (occurrences_zero ":" (toString_hex nonce))
                    (toString_hex_no_delimiter nonce)).
      lia. }
    eexists.
    split; [exact (decrypt_wrong_segments host this m _ Hm Hsegments)
           | reflexivity].
  - intros Hocc.
    assert (Hs : all_chars (not_char ":") secret' = true)
      by (apply occurrences_zero; lia).
    assert (Ht : all_chars (not_char ":") tag' = true)
      by (apply occurrences_zero; lia).
    destruct (decrypt_envelope host this (toString_hex nonce) secret' tag'
                Hlen (toString_hex_ascii nonce)
                (toString_hex_no_delimiter nonce) Hs Ht) as [_ Hdec].
    change TAG_DELIMITER with ":"%char in Hdec.
    rewrite Hdec, Hk. cbn [SecureBuffer.value].
    destruct (decrypt_callback_cases this m tag' (toString_hex nonce) secret'
                buffer Hm Hc) as [(dec & Htry & Hret) | (cause & Htry & Herr)].
    + (* the decipher accepted *)
      destruct (decrypt_try_returns _ _ _ _ _ Htry) as [Heven Hrun].
      destruct (decipher_sound _ _ _ _ _ Hc Hrun) as (tag'' & Hseal & Hpre).
      split; [|split; [|split]].
      * intros Hodd. rewrite Hodd in Heven. discriminate.
      * right. now exists dec, tag''.
      * intros Hwf _ Hsec Htag. rewrite Hsec, Htag in Hrun.
        rewrite (decipher_cipher _ _ _ _ _ Hc Hr) in Hrun.
        apply inr_inj in Hrun. subst dec.
        now rewrite Hret, toString_utf8_Buffer_from_utf8.
      * intros Hsec Htl Hne. exfalso. apply Hne.
        rewrite Hsec in Hseal.
        assert (Hsame : dec = Buffer_from_utf8 text).
        { apply (cipher_injective _ _ _ _ Hc). now rewrite Hseal, Hr. }
        subst dec. rewrite Hr in Hseal.
        assert (Htags : tag = tag'') by exact (f_equal snd Hseal).
        subst tag''. rewrite Htl, firstn_all in Hpre. now symmetry.
    + (* the [try] block failed *)
      split; [|split; [|split]].
      * intros _. exact Herr.
      * now left.
      * intros _ Heven Hsec Htag.
        assert (Hrun : decipher_run (cipher_key buffer)
                         (Buffer_from_utf8 (toString_hex nonce))
                         (Buffer_from_hex tag') (Buffer_from_hex secret')
                       = inr (Buffer_from_utf8 text)).
        { rewrite Hsec, Htag. exact (decipher_cipher _ _ _ _ _ Hc Hr). }
        rewrite (decrypt_try_even _ _ _ _ _ Heven Hrun) in Htry.
        discriminate.
      * intros _ _ _. exact Herr.
Qed.

End Tampering.

(** ** The theorems at work, and where the claims fail *)

Lemma token_well_formed : well_formed Scenario.token.
Proof. apply ascii_utf8_valid. reflexivity. Qed.

Lemma scenario_encrypt :
  @encrypt node_aes_256_gcm Scenario.crypto (Str Scenario.token) Scenario.world'
  = (Return (Str Scenario.envelope),
     snd (randomBytes BYTE_COUNT_FOR_IV Scenario.world')).
Proof. vm_compute. reflexivity. Qed.

Lemma null_propagation_witness :
  @encrypt node_aes_256_gcm Scenario.crypto null Scenario.world'
  = (Return undefined, Scenario.world').
Proof.
  exact (proj1 (@null_propagation node_aes_256_gcm Scenario.host
                  Scenario.crypto Scenario.world')).
Defined.

Lemma decrypt_invalid_format_witness :
  fails_with (@decrypt node_aes_256_gcm Scenario.host Scenario.crypto (Str "a:b:c"))
    "InvalidEncryptedFormatError"
  <-> List.length (split TAG_DELIMITER "a:b:c") <> 2.
Proof.
  refine (proj1 (@decrypt_invalid_format node_aes_256_gcm Scenario.host
                   Scenario.crypto
                   (loadMessages "@salesforce/core" "encryption") "a:b:c" _)).
  reflexivity.
Defined.

Lemma envelope_format_witness :
  exists buffer secret tag : list byte,
    Str Scenario.envelope
    = Str (toString_hex (fst (randomBytes BYTE_COUNT_FOR_IV Scenario.world'))
             ++ toString_hex secret ++ String ":" (toString_hex tag)) /\
    _key Scenario.crypto = Some (SecureBuffer.Populated buffer).
Proof.
  destruct (@envelope_format node_aes_256_gcm Scenario.host Scenario.crypto
              Scenario.token Scenario.world' _ (Str Scenario.envelope)
              scenario_encrypt)
    as (buffer & secret & tag & Hv & _ & _ & _ & _ & _ & _ & Hk & _).
  exists buffer, secret, tag. split; [exact Hv | exact Hk].
Defined.

Lemma decrypt_encrypt_witness :
  exists out w',
    @encrypt node_aes_256_gcm Scenario.crypto (Str Scenario.token) Scenario.world'
    = (Return (Str out), w') /\
    @decrypt node_aes_256_gcm Scenario.host Scenario.crypto (Str out)
    = Return (Str Scenario.token).
Proof.
  apply (@decrypt_encrypt node_aes_256_gcm Scenario.host Scenario.crypto
           (Buffer_from_utf8 "0b30557a9fc4e90e33587da2c7ec1136")).
  - reflexivity.
  - reflexivity.
  - exact token_well_formed.
Defined.

Lemma init_never_gives_up_witness :
  exists this' w',
    init 3 Scenario.host
      (constructor (Some (Scenario.with_keychain Scenario.forgetful_keychain false)))
      Scenario.world = (None, this', w') /\
    count_getPassword (calls w') = count_getPassword (calls Scenario.world) + 3 /\
    count_setPassword (calls w') = count_setPassword (calls Scenario.world) + 3.
Proof.
  apply (init_never_gives_up Scenario.host Scenario.forgetful_keychain).
  - intros log. exists Scenario.PasswordNotFoundError. split; reflexivity.
  - reflexivity.
  - discriminate.
  - reflexivity.
  - reflexivity.
Defined.

Lemma init_provisions_key_witness :
  exists this' w',
    (forall fuel, 2 <= fuel ->
       init fuel Scenario.host (constructor None) Scenario.world
       = (Some (Return tt), this', w')) /\
    calls w'
    = [GetPassword "sfdx" "local";
       SetPassword "sfdx" "local" "0b30557a9fc4e90e33587da2c7ec1136";
       GetPassword "sfdx" "local"] /\
    _key this'
    = Some (SecureBuffer.Populated
              (Buffer_from_utf8 "0b30557a9fc4e90e33587da2c7ec1136")).
Proof.
  destruct (init_provisions_key Scenario.host Scenario.memory_keychain
              (constructor None) Scenario.world)
    as (this' & w' & Hinit & Hcalls & _ & _ & _ & Hkey).
  - discriminate.
  - reflexivity.
  - reflexivity.
  - exists Scenario.PasswordNotFoundError. split; reflexivity.
  - reflexivity.
  - reflexivity.
  - exists this', w'. split; [exact Hinit | split; [exact Hcalls | exact Hkey]].
Defined.

Lemma scenario_reachable : Reachable Scenario.host Scenario.crypto.
Proof. apply reach_init, reach_constructor. Qed.

Lemma key_never_null_witness : _key Scenario.crypto <> None.
Proof.
  exact (proj1 (@key_never_null node_aes_256_gcm Scenario.host Scenario.crypto
                  scenario_reachable)).
Defined.

Lemma close_keeps_key_witness :
  exists buffer,
    _key Scenario.keeper = Some (SecureBuffer.Populated buffer) /\
    close Scenario.keeper = (Return tt, Scenario.keeper).
Proof.
  destruct (@close_keeps_key node_aes_256_gcm Scenario.host
              (Scenario.with_keychain Scenario.memory_keychain true)
              Scenario.world Scenario.world' Scenario.keeper)
    as (buffer & Hk & Hclose & _).
  - reflexivity.
  - exists 2. reflexivity.
  - exists buffer. split; [exact Hk | exact Hclose].
Defined.

Lemma closed_guard_dead_witness :
  _key (snd (close Scenario.crypto)) <> None /\
  ~ fails_with
      (fst (@encrypt node_aes_256_gcm (snd (close Scenario.crypto))
              (Str Scenario.token) Scenario.world'))
      "KeychainPasswordCreationError" /\
  ~ fails_with
      (@decrypt node_aes_256_gcm Scenario.host (snd (close Scenario.crypto))
         (Str Scenario.envelope))
      "KeychainPasswordCreationError".
Proof.
  destruct (@closed_guard_dead node_aes_256_gcm Scenario.host Scenario.crypto
              scenario_reachable eq_refl)
    as (cell & _ & Hclose & _ & Henc & Hdec).
  split_and.
  - rewrite Hclose. discriminate.
  - apply Henc.
  - apply Hdec.
Defined.

Lemma tampered_envelope_witness :
  exists buffer nonce secret tag : list byte,
    Str Scenario.envelope
    = Str (toString_hex nonce ++ toString_hex secret
             ++ String ":" (toString_hex tag)) /\
    @cipher_run node_aes_256_gcm (cipher_key buffer)
      (Buffer_from_utf8 (toString_hex nonce))
      (Buffer_from_utf8 Scenario.token) = (secret, tag).
Proof.
  destruct (@tampered_envelope node_aes_256_gcm Scenario.host Scenario.crypto
              (loadMessages "@salesforce/core" "encryption") Scenario.token
              Scenario.world' _ (Str Scenario.envelope) eq_refl scenario_encrypt)
    as (buffer & nonce & secret & tag & Hv & Hr & _).
  exists buffer, nonce, secret, tag. split; [exact Hv | exact Hr].
Defined.

(** The envelope of the setting with one more digit in its ciphertext:
    [update] refuses the odd number of characters before the decipher has
    seen a byte, and [decrypt] fails with the decryption error. *)
Example odd_ciphertext_refused :
  @decrypt node_aes_256_gcm Scenario.host Scenario.crypto
    (Str "5b80a5caef14063847946368c91b05b430660:69bf411815769aca359bf6fcb926e457")
  = Throw (SfdxError_wrap
             (Localized "encryption" "AuthDecryptError"
                [Plain (invalid_hex_length 25)])
             None).
Proof. vm_compute. reflexivity. Qed.

(** C4 fails as it is stated.  In the envelope of the setting, inverting
    bit 5 of the ['b'] at position 39, in the tag, or of the ['c'] at
    position 24, in the ciphertext, turns the letter into its capital:
    the envelope is a different string, it decodes to the same bytes, and
    [decrypt] returns the text.  Inverting bit 3 of the ['2'] at position
    63, in the tag, turns it into [':']: [decrypt] fails with
    [InvalidEncryptedFormatError], which is not the decryption error.
    And the envelope of the two-block secret can be changed in its
    ciphertext so that its tag still fits: [decrypt] then returns
    another text than the one that was encrypted. *)
Lemma tamper_counterexample :
  @encrypt node_aes_256_gcm Scenario.crypto (Str Scenario.token) Scenario.world'
  = (Return (Str Scenario.envelope),
     snd (randomBytes BYTE_COUNT_FOR_IV Scenario.world')) /\
  flip_at 39 5 Scenario.envelope
  = "5b80a5caef14063847946368c91b05b43066:69Bf411815769aca359bf6fcb926e457" /\
  @decrypt node_aes_256_gcm Scenario.host Scenario.crypto
    (Str (flip_at 39 5 Scenario.envelope)) = Return (Str Scenario.token) /\
  flip_at 24 5 Scenario.envelope
  = "5b80a5caef14063847946368C91b05b43066:69bf411815769aca359bf6fcb926e457" /\
  @decrypt node_aes_256_gcm Scenario.host Scenario.crypto
    (Str (flip_at 24 5 Scenario.envelope)) = Return (Str Scenario.token) /\
  flip_at 63 3 Scenario.envelope
  = "5b80a5caef14063847946368c91b05b43066:69bf411815769aca359bf6fcb9:6e457" /\
  @decrypt node_aes_256_gcm Scenario.host Scenario.crypto
    (Str (flip_at 63 3 Scenario.envelope))
  = Throw (SfdxError
             (Localized "encryption" "InvalidEncryptedFormatError" [])
             "InvalidEncryptedFormatError"
             [Localized "encryption" "InvalidEncryptedFormatErrorAction" []]) /\
  @encrypt node_aes_256_gcm Scenario.crypto (Str Scenario.long_token)
    Scenario.world'
  = (Return (Str Scenario.long_envelope),
     snd (randomBytes BYTE_COUNT_FOR_IV Scenario.world')) /\
  @decrypt node_aes_256_gcm Scenario.host Scenario.crypto
    (Str Scenario.forged_envelope)
  = Return (Str (toString_utf8 Scenario.forged_text)) /\
  String.eqb (toString_utf8 Scenario.forged_text) Scenario.long_token = false.
Proof. vm_compute. split_and; reflexivity. Qed.

(** * More of the class *)

(** ** What [init] does with any logger *)

Section InitAnyLogger.

Context {logger : Logger}.
Variable host : Host.

Lemma same_options_refl (this : Crypto) : same_options this this.
Proof. unfold same_options. auto. Qed.

Lemma same_options_init_fields (this : Crypto) :
  same_options this (init_fields host this).
Proof.
  unfold same_options, init_fields.
  destruct (truthy_string (Options.platform (options this))) eqn:E;
    cbn; split_and; auto; discriminate.
Qed.

Lemma same_options_getKeyChain (platform : string) (this : Crypto) :
  same_options this (snd (getKeyChain host platform this)).
Proof.
  unfold getKeyChain.
  destruct (Options.keychain (options this)) as [k|] eqn:E;
    [apply same_options_refl|].
  destruct (retrieveKeychain host platform); [apply same_options_refl|].
  unfold same_options. cbn. rewrite E. split_and; auto; discriminate.
Qed.

Lemma same_options_trans (a b c : Crypto) :
  same_options a b -> same_options b c -> same_options a c.
Proof.
  intros (R1 & N1 & K1 & P1) (R2 & N2 & K2 & P2).
  unfold same_options. split_and.
  - now rewrite R2.
  - now rewrite N2.
  - auto.
  - intros H. rewrite P2, P1; auto. now rewrite P1.
Qed.

Lemma same_options_prepared (this : Crypto) :
  same_options this (prepared host this).
Proof.
  apply same_options_trans with (b := init_fields host this).
  - apply same_options_init_fields.
  - apply same_options_getKeyChain.
Qed.

Lemma same_options_with_key (this this' : Crypto) (cell : SecureBuffer.t) :
  same_options this this' -> same_options this (with_key cell this').
Proof. intros H. exact H. Qed.

(** Without a logger an activation of [init] throws at once. *)
Lemma init_rejected (fuel : nat) (this : Crypto) (w : World)
    (err : Exception) :
  Logger_child "crypto" = Some err ->
  init (S fuel) host this w = (Some (Throw err), this, w).
Proof. intros H. cbn [init]. now rewrite H. Qed.

(** With its logger, one activation of [init] ends in one of three ways:
    it starts the next activation, it throws, or it loads a password and
    returns.  In each case the instance it leaves is the one it found
    with the platform and the keychain filled in, and with the password
    in the key cell in the third. *)
Lemma init_activation (fuel : nat) (this : Crypto) (w : World) :
  Logger_child "crypto" = None ->
  exists this1,
    same_options this this1 /\ _key this1 = _key this /\
    messages this1 = Some (loadMessages "@salesforce/core" "encryption") /\
    noResetOnClose this1 = Some (Options.noResetOnClose (options this)) /\
    ((exists w1, init (S fuel) host this w = init fuel host this1 w1) \/
     (exists r w1, init (S fuel) host this w = (Some (Throw r), this1, w1)) \/
     (exists password w1,
         init (S fuel) host this w
         = (Some (Return tt),
            with_key (SecureBuffer.Populated (Buffer_from_utf8 password)) this1,
            w1))).
Proof.
  intros Hlog. cbn [init]. rewrite Hlog.
  unfold init_try. rewrite key_init_fields.
  destruct (_key this) as [cell|] eqn:Hcell.
  - exists (prepared host this).
    split; [apply same_options_prepared|].
    split; [now rewrite key_prepared|].
    split; [apply messages_prepared|].
    split; [apply noResetOnClose_prepared|].
    unfold prepared.
    destruct (getKeyChain host _ (init_fields host this)) as [[k|err] this1].
    + cbn [snd].
      destruct (keychainPromises.getPassword k KEY_NAME ACCOUNT w)
        as [[[u password]|err] w1].
      * right. right. now exists password, w1.
      * destruct (String.eqb (error_name err) "PasswordNotFoundError");
          [|right; left; now exists err, w1].
        destruct (retryStatus_is_KEY_SET this1);
          [right; left; now exists err, w1|].
        destruct (randomBytes 16 w1) as [bytes w2].
        destruct (Options.keychain (options this1));
          [|right; left; now exists UnexpectedValueTypeError, w2].
        destruct (keychainPromises.setPassword _ _ _ _ _) as [[?|e] w3].
        -- left. now exists w3.
        -- right. left. now exists e, w3.
    + cbn [snd].
      destruct (String.eqb (error_name err) "PasswordNotFoundError");
        [|right; left; now exists err, w].
      destruct (retryStatus_is_KEY_SET this1);
        [right; left; now exists err, w|].
      destruct (randomBytes 16 w) as [bytes w2].
      destruct (Options.keychain (options this1));
        [|right; left; now exists UnexpectedValueTypeError, w2].
      destruct (keychainPromises.setPassword _ _ _ _ _) as [[?|e] w3].
      * left. now exists w3.
      * right. left. now exists e, w3.
  - exists (init_fields host this).
    split; [apply same_options_init_fields|].
    split; [now rewrite key_init_fields|].
    split; [reflexivity|].
    split; [apply noResetOnClose_init_fields|].
    right. left. now exists TypeError, w.
Qed.

(** X1: an [init] that does not return leaves the key cell as it was:
    the key is stored in the cell only by the activation that returns.  A
    key that was loaded before stays usable when a later [init] throws. *)
Theorem init_keeps_key (fuel : nat) (this this' : Crypto) (w w' : World)
    (r : option (Completion unit)) :
  init fuel host this w = (r, this', w') ->
  r <> Some (Return tt) ->
  _key this' = _key this.
Proof.
  revert this w. induction fuel as [|fuel IH]; intros this w Hinit Hr.
  - cbn [init] in Hinit. now injection Hinit as _ <- _.
  - destruct (Logger_child "crypto") as [err|] eqn:Hlog.
    { rewrite (init_rejected fuel this w err Hlog) in Hinit.
      now injection Hinit as _ <- _. }
    destruct (init_activation fuel this w Hlog)
      as (this1 & _ & Hk & _ & _
          & [(w1 & E) | [(e & w1 & E) | (p & w1 & E)]]);
      rewrite E in Hinit.
    + rewrite <- Hk. now apply IH with (w := w1).
    + injection Hinit as _ <- _. exact Hk.
    + injection Hinit as <- _ _. now elim Hr.
Qed.

(** X2: [init] never assigns [retryStatus] or the option
    [noResetOnClose], and it fills in the platform and the keychain only
    where the options give none: whatever the number of activations and
    however it ends, a keychain that was handed to the constructor is
    still the one in the options, and so is a platform that was named. *)
Theorem init_keeps_options (fuel : nat) (this : Crypto) (w : World) :
  same_options this (snd (fst (init fuel host this w))).
Proof.
  revert this w. induction fuel as [|fuel IH]; intros this w.
  - apply same_options_refl.
  - destruct (Logger_child "crypto") as [err|] eqn:Hlog.
    { rewrite (init_rejected fuel this w err Hlog).
      apply same_options_refl. }
    destruct (init_activation fuel this w Hlog)
      as (this1 & Ho & _ & _ & _
          & [(w1 & E) | [(e & w1 & E) | (p & w1 & E)]]);
      rewrite E.
    + apply same_options_trans with (b := this1); [exact Ho | apply IH].
    + exact Ho.
    + exact Ho.
Qed.

(** With its logger, every activation of [init] loads the messages
    first. *)
Lemma messages_after_init (fuel : nat) (this : Crypto) (w : World) :
  Logger_child "crypto" = None ->
  messages (snd (fst (init (S fuel) host this w)))
  = Some (loadMessages "@salesforce/core" "encryption").
Proof.
  intros Hlog. revert this w. induction fuel as [|fuel IH]; intros this w.
  - destruct (init_activation 0 this w Hlog)
      as (this1 & _ & _ & Hm & _
          & [(w1 & E) | [(e & w1 & E) | (p & w1 & E)]]);
      rewrite E; exact Hm.
  - destruct (init_activation (S fuel) this w Hlog)
      as (this1 & _ & _ & Hm & _
          & [(w1 & E) | [(e & w1 & E) | (p & w1 & E)]]);
      rewrite E; try exact Hm.
    apply IH.
Qed.

(** X3: the first thing [init] does is ask for its logger.  When
    [Logger.child] is rejected, [init] throws that error and the
    instance and the world are as they were: nothing has been assigned.
    When the logger is had, [init] loads the messages and reads
    [noResetOnClose] before it turns to the keychain: however the run
    ends after that, and also while it is still running, the instance
    has its message bundle and [noResetOnClose] is the value of the
    option. *)
Theorem init_loads_messages_first (fuel : nat) (this : Crypto) (w : World) :
  match Logger_child "crypto" with
  | Some err => init (S fuel) host this w = (Some (Throw err), this, w)
  | None =>
      messages (snd (fst (init (S fuel) host this w)))
      = Some (loadMessages "@salesforce/core" "encryption") /\
      noResetOnClose (snd (fst (init (S fuel) host this w)))
      = Some (Options.noResetOnClose (options this))
  end.
Proof.
  destruct (Logger_child "crypto") as [err|] eqn:Hlog.
  { now apply init_rejected. }
  revert this w. induction fuel as [|fuel IH]; intros this w.
  - destruct (init_activation 0 this w Hlog)
      as (this1 & _ & _ & Hm & Hr
          & [(w1 & E) | [(e & w1 & E) | (p & w1 & E)]]);
      rewrite E; split; assumption.
  - destruct (init_activation (S fuel) this w Hlog)
      as (this1 & (_ & Hn & _) & _ & Hm & Hr
          & [(w1 & E) | [(e & w1 & E) | (p & w1 & E)]]);
      rewrite E; try (split; assumption).
    destruct (IH this1 w1) as [Hm' Hr']. split; [exact Hm'|].
    now rewrite Hr', Hn.
Qed.

End InitAnyLogger.

(** ** The other ways [init] ends *)

(** From here on the logger is [logger_ready] again. *)

Section InitOutcomes.

Variable host : Host.

(** X4: when the keychain has a password, [init] returns after one
    [getPassword]: it stores nothing, draws nothing from the random
    source, and leaves in the key cell the bytes of that password,
    whatever the cell held and whatever [retryStatus] says. *)
Theorem init_loads_existing_key (kc : Keychain) (this : Crypto) (w : World)
    (password : string) (fuel : nat) :
  _key this <> None ->
  keychain_in_use host this = inr kc ->
  kc_getPassword kc (calls w) KEY_NAME ACCOUNT = inr password ->
  exists this' w',
    init (S fuel) host this w = (Some (Return tt), this', w') /\
    _key this' = Some (SecureBuffer.Populated (Buffer_from_utf8 password)) /\
    calls w' = (calls w ++ [GetPassword KEY_NAME ACCOUNT])%list /\
    drawn w' = drawn w.
Proof.
  intros Hk Hkc Hget.
  destruct (_key this) as [cell|] eqn:Hcell; [clear Hk | now elim Hk].
  eexists _, _. split.
  - exact (init_found host fuel this cell kc w password Hcell Hkc Hget).
  - split_and; reflexivity.
Qed.

(** X5: an error of the keychain that is not [PasswordNotFoundError] is
    thrown by [init] as it is, after that one [getPassword]: nothing is
    stored, nothing is drawn, no second attempt is made and the key cell
    is as it was. *)
Theorem init_rethrows (kc : Keychain) (this : Crypto) (w : World)
    (err : Exception) (fuel : nat) :
  _key this <> None ->
  keychain_in_use host this = inr kc ->
  kc_getPassword kc (calls w) KEY_NAME ACCOUNT = inl err ->
  error_name err <> "PasswordNotFoundError" ->
  exists this',
    init (S fuel) host this w
    = (Some (Throw err), this', record_call (GetPassword KEY_NAME ACCOUNT) w) /\
    _key this' = _key this.
Proof.
  intros Hk Hkc Hget Hname.
  destruct (_key this) as [cell|] eqn:Hcell; [clear Hk | now elim Hk].
  exists (prepared host this). split; [|now rewrite key_prepared].
  cbn [init Logger_child logger_ready].
  rewrite (init_try_get host this cell kc w Hcell Hkc), Hget.
  apply String.eqb_neq in Hname. now rewrite Hname.
Qed.

(** X6: started with [retryStatus] set to ['KEY_SET'], [init] gives up at
    the first [PasswordNotFoundError]: it throws that error after one
    [getPassword], stores nothing and draws nothing. *)
Theorem init_bails_when_key_set (kc : Keychain) (this : Crypto) (w : World)
    (err : Exception) (fuel : nat) :
  _key this <> None ->
  keychain_in_use host this = inr kc ->
  retryStatus_is_KEY_SET this = true ->
  kc_getPassword kc (calls w) KEY_NAME ACCOUNT = inl err ->
  error_name err = "PasswordNotFoundError" ->
  exists this',
    init (S fuel) host this w
    = (Some (Throw err), this', record_call (GetPassword KEY_NAME ACCOUNT) w) /\
    _key this' = _key this.
Proof.
  intros Hk Hkc Hretry Hget Hname.
  destruct (_key this) as [cell|] eqn:Hcell; [clear Hk | now elim Hk].
  exists (prepared host this). split; [|now rewrite key_prepared].
  exact (init_bails host fuel this cell kc w err Hcell Hkc Hretry Hget Hname).
Qed.

(** X7: when no password is found and the [setPassword] of the new key
    fails, [init] throws the error of that [setPassword], whatever its
    name: the store is not read again, and the key cell is as it was. *)
Theorem init_setPassword_fails (kc : Keychain) (this : Crypto) (w : World)
    (e : Exception) (fuel : nat) :
  _key this <> None ->
  keychain_in_use host this = inr kc ->
  retryStatus_is_KEY_SET this = false ->
  not_found (kc_getPassword kc (calls w) KEY_NAME ACCOUNT) ->
  kc_setPassword kc (calls w ++ [GetPassword KEY_NAME ACCOUNT])
    KEY_NAME ACCOUNT (fresh_key w) = Some e ->
  exists this',
    init (S fuel) host this w = (Some (Throw e), this', provisioned w) /\
    calls (provisioned w)
    = (calls w ++ [GetPassword KEY_NAME ACCOUNT;
                   SetPassword KEY_NAME ACCOUNT (fresh_key w)])%list /\
    _key this' = _key this.
Proof.
  intros Hk Hkc Hretry (err & Hget & Hname) Hset.
  destruct (_key this) as [cell|] eqn:Hcell; [clear Hk | now elim Hk].
  exists (prepared host this).
  split; [|split; [apply calls_provisioned | now rewrite key_prepared]].
  cbn [init Logger_child logger_ready].
  rewrite (init_try_get host this cell kc w Hcell Hkc), Hget, Hname.
  cbn [String.eqb Ascii.eqb Bool.eqb].
  rewrite retryStatus_prepared, Hretry.
  destruct (getKeyChain_in_use host this kc Hkc) as [_ ->].
  unfold keychainPromises.setPassword.
  cbn [randomBytes record_call calls entropy drawn].
  unfold fresh_key in Hset. cbn [randomBytes fst] in Hset.
  rewrite Hset. reflexivity.
Qed.

(** X8: when the options name no keychain and none is found for the
    platform, [init] throws without a single call to a keychain, and the
    key cell is as it was; unless the error of the lookup is itself named
    [PasswordNotFoundError], it is that error that is thrown, and nothing
    is drawn from the random source. *)
Theorem init_without_keychain (this : Crypto) (w : World) (e : Exception)
    (fuel : nat) :
  _key this <> None ->
  keychain_in_use host this = inl e ->
  exists r this' w',
    init (S fuel) host this w = (Some (Throw r), this', w') /\
    calls w' = calls w /\
    _key this' = _key this /\
    (error_name e <> "PasswordNotFoundError" -> r = e /\ w' = w).
Proof.
  intros Hk Hkc.
  destruct (_key this) as [cell|] eqn:Hcell; [clear Hk | now elim Hk].
  unfold keychain_in_use in Hkc.
  destruct (Options.keychain (options this)) as [k|] eqn:Hopt; [discriminate|].
  assert (Hnone : Options.keychain (options (init_fields host this)) = None).
  { unfold init_fields. now destruct (negb _). }
  cbn [init Logger_child logger_ready]. unfold init_try, getKeyChain.
  rewrite key_init_fields, Hcell, Hnone, Hkc.
  destruct (String.eqb (error_name e) "PasswordNotFoundError") eqn:Hname.
  - destruct (retryStatus_is_KEY_SET (init_fields host this)).
    + exists e, (init_fields host this), w.
      split_and; try reflexivity.
      * now rewrite key_init_fields.
      * intros Hne. apply String.eqb_eq in Hname. now elim Hne.
    + cbn [randomBytes]. rewrite Hnone.
      eexists _, _, _. split; [reflexivity|].
      split_and; try reflexivity.
      * now rewrite key_init_fields.
      * intros Hne. apply String.eqb_eq in Hname. now elim Hne.
  - exists e, (init_fields host this), w.
    split_and; try reflexivity.
    + now rewrite key_init_fields.
    + auto.
Qed.

(** X9: the key [init] loads after it has stored a new one is the
    password the keychain then returns, not the key it generated: when
    the keychain answers the second [getPassword] with a password of its
    own, that password is what the key cell holds. *)
Theorem init_loads_store_answer (kc : Keychain) (this : Crypto) (w : World)
    (password : string) (fuel : nat) :
  _key this <> None ->
  keychain_in_use host this = inr kc ->
  retryStatus_is_KEY_SET this = false ->
  not_found (kc_getPassword kc (calls w) KEY_NAME ACCOUNT) ->
  kc_setPassword kc (calls w ++ [GetPassword KEY_NAME ACCOUNT])
    KEY_NAME ACCOUNT (fresh_key w) = None ->
  kc_getPassword kc
    (calls w ++ [GetPassword KEY_NAME ACCOUNT;
                 SetPassword KEY_NAME ACCOUNT (fresh_key w)])
    KEY_NAME ACCOUNT = inr password ->
  exists this' w',
    init (S (S fuel)) host this w = (Some (Return tt), this', w') /\
    _key this' = Some (SecureBuffer.Populated (Buffer_from_utf8 password)) /\
    calls w' = (calls w ++ [GetPassword KEY_NAME ACCOUNT;
                            SetPassword KEY_NAME ACCOUNT (fresh_key w);
                            GetPassword KEY_NAME ACCOUNT])%list.
Proof.
  intros Hk Hkc Hretry Hmiss Hset Hhit.
  destruct (_key this) as [cell|] eqn:Hcell; [clear Hk | now elim Hk].
  eexists _, _. split; [|split].
  - rewrite (init_not_found host _ this cell kc w Hcell Hkc Hretry Hmiss Hset).
    apply init_found with (cell := cell) (kc := kc).
    + now rewrite key_prepared.
    + now apply keychain_in_use_prepared.
    + rewrite calls_provisioned. exact Hhit.
  - reflexivity.
  - cbn [record_call calls]. rewrite calls_provisioned, <- app_assoc.
    reflexivity.
Qed.

End InitOutcomes.

(** ** [getKeyChain] *)

(** X10: [getKeyChain] looks a keychain up at most once.  A keychain it has
    returned is in the options afterwards, and every later call returns
    that keychain and leaves the instance as it is, whatever platform is
    asked for and whatever the host would find; in particular a keychain
    handed to the constructor is the one returned. *)
Theorem getKeyChain_cached (host host' : Host) (platform platform' : string)
    (this this1 : Crypto) (k : Keychain) :
  getKeyChain host platform this = (Return k, this1) ->
  Options.keychain (options this1) = Some k /\
  getKeyChain host' platform' this1 = (Return k, this1).
Proof.
  unfold getKeyChain at 1.
  destruct (Options.keychain (options this)) as [k0|] eqn:E.
  - intros H. injection H as -> ->.
    split; [exact E|]. unfold getKeyChain. now rewrite E.
  - destruct (retrieveKeychain host platform) as [err|k0]; [discriminate|].
    intros H. injection H as -> <-.
    split; [reflexivity|]. reflexivity.
Qed.

(** ** More on [encrypt] and [decrypt] *)

Lemma Str_injective (a b : string) : Str a = Str b -> a = b.
Proof.
  intros H.
  exact (f_equal (fun v => match v with Str s => s | _ => a end) H).
Qed.

Lemma toString_hex_injective (a b : list byte) :
  toString_hex a = toString_hex b -> a = b.
Proof.
  intros H. apply (f_equal Buffer_from_hex) in H.
  now rewrite !Buffer_from_hex_toString_hex in H.
Qed.

Lemma append_same_length (a b x y : string) :
  String.length a = String.length b -> a ++ x = b ++ y -> a = b.
Proof.
  revert b. induction a as [|c a IH]; intros [|d b]; simpl;
    try discriminate; [reflexivity|].
  intros Hlen H. injection Hlen as Hlen. injection H as -> H.
  f_equal. now apply IH.
Qed.

Lemma Buffer_from_utf8_append (a b : string) :
  Buffer_from_utf8 (a ++ b) = (Buffer_from_utf8 a ++ Buffer_from_utf8 b)%list.
Proof.
  unfold Buffer_from_utf8, list_byte_of_string.
  induction a as [|c a IH]; [reflexivity|]. simpl. now rewrite IH.
Qed.

Lemma hex_of_byte_ascii (b : byte) :
  forallb (in_range 0 127) (Buffer_from_utf8 (hex_of_byte b)) = true.
Proof. destruct b; reflexivity. Qed.

Lemma toString_hex_well_formed (bs : list byte) :
  well_formed (toString_hex bs).
Proof.
  apply ascii_utf8_valid.
  induction bs as [|b bs IH]; [reflexivity|].
  cbn [toString_hex].
  now rewrite Buffer_from_utf8_append, forallb_app, hex_of_byte_ascii, IH.
Qed.

(** The key [init] generates is a key the suite accepts. *)
Lemma fresh_key_accepted (w : World) :
  suite_correct (Buffer_from_utf8 (fresh_key w)).
Proof.
  unfold suite_correct, cipher_key.
  rewrite toString_utf8_Buffer_from_utf8 by apply toString_hex_well_formed.
  rewrite length_Buffer_from_utf8. apply length_fresh_key.
Qed.

Section MoreOnCipher.

Context {suite : Aes256Gcm}.
Variable host : Host.

(** An envelope opens wherever the key cell holds the key it was made
    with. *)
Lemma opens_with_key (a b : Crypto) (s : string) (w w' : World)
    (v : JsValue) :
  encrypt a (Str s) w = (Return v, w') ->
  _key b = _key a ->
  well_formed s ->
  decrypt host b v = Return (Str s).
Proof.
  intros Henc Hkey Hwf.
  apply encrypt_result in Henc
    as (buffer & secret & tag & nonce & Hnonce & Hk & _ & Hc & Hr & ->).
  destruct (decrypt_envelope host b (toString_hex nonce)
              (toString_hex secret) (toString_hex tag)) as [_ Hdec];
    try apply toString_hex_no_delimiter; try apply toString_hex_ascii.
  { rewrite Hnonce. apply length_nonce_hex. }
  rewrite Hdec, Hkey, Hk. cbn [SecureBuffer.value].
  now apply decrypt_callback_sealed.
Qed.

(** X11: two [encrypt] calls in a row on an instance take their nonces
    from consecutive windows of six bytes of the random stream, and each
    envelope starts with its nonce in hexadecimal: the envelopes differ
    whenever the two windows differ, also when the text is the same. *)
Theorem successive_nonces (this : Crypto) (s1 s2 : string)
    (w w1 w2 : World) (v1 v2 : JsValue) :
  encrypt this (Str s1) w = (Return v1, w1) ->
  encrypt this (Str s2) w1 = (Return v2, w2) ->
  let n1 := map (entropy w) (seq (drawn w) 6) in
  let n2 := map (entropy w) (seq (drawn w + 6) 6) in
  (exists rest1 rest2,
      v1 = Str (toString_hex n1 ++ rest1) /\
      v2 = Str (toString_hex n2 ++ rest2)) /\
  drawn w2 = drawn w + 12 /\
  (n1 <> n2 -> v1 <> v2).
Proof.
  intros H1 H2 n1 n2.
  apply encrypt_result in H1
    as (b1 & c1 & t1 & m1 & Hm1 & _ & Hw1 & _ & _ & ->).
  apply encrypt_result in H2
    as (b2 & c2 & t2 & m2 & Hm2 & _ & Hw2 & _ & _ & ->).
  assert (E1 : m1 = n1) by exact Hm1.
  assert (E2 : m2 = n2) by (rewrite Hm2, Hw1; reflexivity).
  rewrite E1, E2. split; [|split].
  - eexists _, _. split; reflexivity.
  - rewrite Hw2, Hw1. cbn [randomBytes snd drawn]. unfold BYTE_COUNT_FOR_IV. lia.
  - intros Hne H. apply Str_injective in H.
    apply append_same_length in H.
    + now apply toString_hex_injective in H.
    + rewrite !length_toString_hex. unfold n1, n2.
      now rewrite !length_map, !length_seq.
Qed.

(** X12: when the cipher refuses the key in the key cell, as it does for
    a key of the wrong length, both methods throw the error of the
    builtin as it is.  In [decrypt] the decipher is created outside the
    [try] block: the error is not the decryption error, it carries no
    hint, and the messages need not be loaded. *)
Theorem refused_key_unwrapped (this : Crypto) (buffer : list byte)
    (m : string) :
  _key this = Some (SecureBuffer.Populated buffer) ->
  (forall iv, createCipheriv (cipher_key buffer) iv = Some m) ->
  (forall s w, fst (encrypt this (Str s) w) = Throw (NodeError m)) /\
  (forall s, List.length (split TAG_DELIMITER s) = 2 ->
             decrypt host this (Str s) = Throw (NodeError m)).
Proof.
  intros Hk Hrefuse. split.
  - intros s w. unfold encrypt. rewrite Hk.
    destruct (randomBytes BYTE_COUNT_FOR_IV w) as [bytes w1].
    cbn [fst SecureBuffer.value]. unfold encrypt_callback.
    now rewrite Hrefuse.
  - intros s Hlen. unfold decrypt. rewrite Hlen, Hk.
    cbn [Nat.eqb negb SecureBuffer.value]. unfold decrypt_callback.
    now rewrite Hrefuse.
Qed.

(** X13: an error that [decrypt] throws through [SfdxError.wrap] is
    always the decryption error: its message was replaced by
    [AuthDecryptError] with the message of the cause as token, on every
    platform.  It was given the hint [MacKeychainOutOfSync] before it was
    wrapped exactly when the platform is ['darwin'] and neither
    environment variable asks for the generic keychain. *)
Theorem decryption_error_hint (this : Crypto) (v : JsValue) (msg : Message)
    (actions : option Message) :
  decrypt host this v = Throw (SfdxError_wrap msg actions) ->
  (exists m cause,
      messages this = Some m /\
      msg = getMessage m "AuthDecryptError" [Plain cause]) /\
  actions
  = if (String.eqb (os_platform host) "darwin"
        && negb (env_getBoolean host "SFDX_USE_GENERIC_UNIX_KEYCHAIN"
                 || env_getBoolean host "USE_GENERIC_UNIX_KEYCHAIN"))%bool
    then Some (Localized "crypto" "MacKeychainOutOfSync" [])
    else None.
Proof.
  destruct v as [| |s]; try discriminate.
  unfold decrypt.
  destruct (negb _).
  - unfold this_getMessage. destruct (messages this); discriminate.
  - destruct (_key this) as [[|buffer]|]; try discriminate.
    cbn [SecureBuffer.value]. unfold decrypt_callback.
    destruct (createCipheriv _ _); [discriminate|].
    destruct (decrypt_try _ _ _ _) as [cause|dec]; [|discriminate].
    unfold this_getMessage. destruct (messages this) as [m|]; [|discriminate].
    intros H. injection H as <- <-.
    split; [now exists m, cause | reflexivity].
Qed.

(** X14: an envelope opens on every instance whose key cell holds the
    bytes it was made with: on another instance, on another host, with
    other options, with or without messages loaded. *)
Theorem envelope_portable (a b : Crypto) (s : string) (w w' : World)
    (v : JsValue) :
  encrypt a (Str s) w = (Return v, w') ->
  _key b = _key a ->
  well_formed s ->
  decrypt host b v = Return (Str s).
Proof.
  intros Henc Hkey Hwf.
  apply encrypt_result in Henc
    as (buffer & secret & tag & nonce & Hnonce & Hk & _ & Hc & Hr & ->).
  destruct (decrypt_envelope host b (toString_hex nonce)
              (toString_hex secret) (toString_hex tag)) as [_ Hdec];
    try apply toString_hex_no_delimiter; try apply toString_hex_ascii.
  { rewrite Hnonce. apply length_nonce_hex. }
  rewrite Hdec, Hkey, Hk. cbn [SecureBuffer.value].
  now apply decrypt_callback_sealed.
Qed.

(** X15: [decrypt] checks the number of segments and nothing else.  When
    the first segment has a length of 12 or less, counted as JavaScript
    counts it, in UTF-16 code units, no error of format is raised: the
    whole segment is taken as the nonce and the ciphertext is the empty
    string, and it is the cipher that decides. *)
Theorem decrypt_short_segment (this : Crypto) (segment tag : string) :
  all_chars (not_char TAG_DELIMITER) segment = true ->
  all_chars (not_char TAG_DELIMITER) tag = true ->
  js_length segment <= BYTE_COUNT_FOR_IV * 2 ->
  decrypt host this (Str (segment ++ String TAG_DELIMITER tag))
  = match _key this with
    | None => Throw TypeError
    | Some cell =>
        SecureBuffer.value cell
          (decrypt_callback host this tag segment EmptyString)
    end.
Proof.
  intros Hs Ht Hlen. unfold decrypt.
  rewrite (split_append _ _ _ Hs), (split_without _ _ Ht).
  cbn [List.length Nat.eqb negb nth].
  now rewrite (js_substring_short_head _ _ Hlen),
              (js_substring_short_tail _ _ Hlen).
Qed.

(** X16: the error of format needs the messages, and [init] loads them
    once it has its logger.  On an instance that was constructed and not
    initialized, a string that does not split into two segments makes
    [decrypt] throw a [TypeError].  After an [init] whose logger was
    refused it still does; after an [init] that had its logger, however
    that [init] ended, the same call fails with
    [InvalidEncryptedFormatError]. *)
Theorem format_error_needs_init {logger : Logger} (opts : option Options.t)
    (s : string) (w : World) (fuel : nat) :
  List.length (split TAG_DELIMITER s) <> 2 ->
  decrypt host (constructor opts) (Str s) = Throw TypeError /\
  match Logger_child "crypto" with
  | Some _ =>
      decrypt host (snd (fst (init (S fuel) host (constructor opts) w)))
        (Str s)
      = Throw TypeError
  | None =>
      fails_with
        (decrypt host (snd (fst (init (S fuel) host (constructor opts) w)))
           (Str s))
        "InvalidEncryptedFormatError"
  end.
Proof.
  intros Hn.
  assert (Hbare : decrypt host (constructor opts) (Str s) = Throw TypeError).
  { unfold decrypt. apply Nat.eqb_neq in Hn. now rewrite Hn. }
  split; [exact Hbare|].
  destruct (Logger_child "crypto") as [err|] eqn:Hlog.
  - now rewrite (init_rejected host fuel (constructor opts) w err Hlog).
  - eexists. split.
    + apply decrypt_wrong_segments;
        [exact (messages_after_init host fuel (constructor opts) w Hlog)
        | exact Hn].
    + reflexivity.
Qed.

(** X17: the key [init] generates and stores is one the cipher accepts:
    on a keychain that had no password and keeps the one it is given, the
    instance [init] returns encrypts every well-formed text and decrypts
    the envelope to that text. *)
Theorem provisioned_key_works (kc : Keychain) (this : Crypto) (w : World) :
  _key this <> None ->
  keychain_in_use host this = inr kc ->
  retryStatus_is_KEY_SET this = false ->
  not_found (kc_getPassword kc (calls w) KEY_NAME ACCOUNT) ->
  kc_setPassword kc (calls w ++ [GetPassword KEY_NAME ACCOUNT])
    KEY_NAME ACCOUNT (fresh_key w) = None ->
  kc_getPassword kc
    (calls w ++ [GetPassword KEY_NAME ACCOUNT;
                 SetPassword KEY_NAME ACCOUNT (fresh_key w)])
    KEY_NAME ACCOUNT = inr (fresh_key w) ->
  exists this' w',
    init 2 host this w = (Some (Return tt), this', w') /\
    forall s w2, well_formed s ->
      exists out w3,
        encrypt this' (Str s) w2 = (Return (Str out), w3) /\
        decrypt host this' (Str out) = Return (Str s).
Proof.
  intros Hk Hkc Hretry Hmiss Hset Hhit.
  destruct (_key this) as [cell|] eqn:Hcell; [clear Hk | now elim Hk].
  set (this' := with_key
                  (SecureBuffer.Populated (Buffer_from_utf8 (fresh_key w)))
                  (prepared host (prepared host this))).
  exists this', (record_call (GetPassword KEY_NAME ACCOUNT) (provisioned w)).
  split.
  - rewrite (init_not_found host _ this cell kc w Hcell Hkc Hretry Hmiss Hset).
    apply init_found with (cell := cell) (kc := kc).
    + now rewrite key_prepared.
    + now apply keychain_in_use_prepared.
    + rewrite calls_provisioned. exact Hhit.
  - intros s w2 Hwf.
    destruct (encrypt_succeeds this' (Buffer_from_utf8 (fresh_key w)) s w2
                eq_refl (fresh_key_accepted w)) as [out Henc].
    eexists _, _. split; [exact Henc|].
    exact (envelope_opens host this' s w2 _ (Str out) Henc Hwf).
Qed.

Lemma keychain_in_use_close (this : Crypto) :
  keychain_in_use host (snd (close this)) = keychain_in_use host this.
Proof.
  unfold close. destruct (negb _); [|reflexivity].
  destruct (_key this); [|reflexivity].
  unfold keychain_in_use, this_options_platform, init_fields.
  cbn [snd with_key options].
  destruct (Options.keychain (options this)); [reflexivity|].
  now destruct (negb (truthy_string (Options.platform (options this)))).
Qed.

(** X18: closing is not the end of an instance.  After [close()], an
    [init] that finds the password in the keychain loads the key again,
    and an envelope that was made before the close opens as before. *)
Theorem init_after_close (kc : Keychain) (this : Crypto) (password : string)
    (s : string) (w0 w0' w : World) (v : JsValue) (fuel : nat) :
  _key this = Some (SecureBuffer.Populated (Buffer_from_utf8 password)) ->
  encrypt this (Str s) w0 = (Return v, w0') ->
  well_formed s ->
  keychain_in_use host this = inr kc ->
  kc_getPassword kc (calls w) KEY_NAME ACCOUNT = inr password ->
  exists this' w',
    init (S fuel) host (snd (close this)) w = (Some (Return tt), this', w') /\
    _key this' = _key this /\
    decrypt host this' v = Return (Str s).
Proof.
  intros Hk Henc Hwf Hkc Hget.
  assert (Hcell : exists cell, _key (snd (close this)) = Some cell).
  { unfold close.
    destruct (negb _); [rewrite Hk; cbn; eauto | cbn [snd]; eauto]. }
  destruct Hcell as [cell Hcell].
  rewrite <- keychain_in_use_close in Hkc.
  eexists _, _. split; [|split].
  - exact (init_found host fuel _ cell kc w password Hcell Hkc Hget).
  - cbn [with_key _key]. now rewrite Hk.
  - apply (opens_with_key this _ s w0 w0' v Henc); [|exact Hwf].
    cbn [with_key _key]. now rewrite Hk.
Qed.

End MoreOnCipher.

(** ** The further properties at work *)

Lemma second_encrypt :
  @encrypt node_aes_256_gcm Scenario.crypto (Str Scenario.token)
    (snd (randomBytes BYTE_COUNT_FOR_IV Scenario.world'))
  = (Return (Str Cases.second_envelope),
     snd (randomBytes BYTE_COUNT_FOR_IV
            (snd (randomBytes BYTE_COUNT_FOR_IV Scenario.world')))).
Proof. vm_compute. reflexivity. Qed.

Lemma bad_tag_refused :
  @decrypt node_aes_256_gcm Cases.mac_host Scenario.crypto
    (Str Cases.bad_tag_envelope)
  = Throw (SfdxError_wrap
             (Localized "encryption" "AuthDecryptError"
                [Plain "Unsupported state or unable to authenticate data"])
             (Some (Localized "crypto" "MacKeychainOutOfSync" []))).
Proof. vm_compute. reflexivity. Qed.

Lemma init_keeps_key_witness :
  _key (snd (fst (init 1 Scenario.host Cases.locked_out Scenario.world')))
  = _key Cases.locked_out.
Proof.
  apply (init_keeps_key Scenario.host 1 Cases.locked_out
           (snd (fst (init 1 Scenario.host Cases.locked_out Scenario.world')))
           Scenario.world'
           (snd (init 1 Scenario.host Cases.locked_out Scenario.world'))
           (Some (Throw Cases.KeychainAccessError))).
  - vm_compute. reflexivity.
  - discriminate.
Defined.

Lemma init_loads_existing_key_witness :
  exists this' w',
    init 1 Scenario.host Scenario.crypto Scenario.world'
    = (Some (Return tt), this', w') /\
    _key this'
    = Some (SecureBuffer.Populated
              (Buffer_from_utf8 "0b30557a9fc4e90e33587da2c7ec1136")) /\
    calls w' = (calls Scenario.world' ++ [GetPassword KEY_NAME ACCOUNT])%list /\
    drawn w' = drawn Scenario.world'.
Proof.
  apply (init_loads_existing_key Scenario.host Scenario.memory_keychain
           Scenario.crypto Scenario.world'
           "0b30557a9fc4e90e33587da2c7ec1136" 0).
  - vm_compute. discriminate.
  - reflexivity.
  - reflexivity.
Defined.

Lemma init_rethrows_witness :
  exists this',
    init 1 Scenario.host
      (constructor (Some (Scenario.with_keychain Cases.locked_keychain false)))
      Scenario.world
    = (Some (Throw Cases.KeychainAccessError), this',
       record_call (GetPassword KEY_NAME ACCOUNT) Scenario.world) /\
    _key this'
    = _key (constructor
              (Some (Scenario.with_keychain Cases.locked_keychain false))).
Proof.
  apply (init_rethrows Scenario.host Cases.locked_keychain).
  - discriminate.
  - reflexivity.
  - reflexivity.
  - vm_compute. discriminate.
Defined.

Lemma init_bails_when_key_set_witness :
  exists this',
    init 1 Scenario.host
      (constructor (Some (Cases.key_set Scenario.forgetful_keychain)))
      Scenario.world
    = (Some (Throw Scenario.PasswordNotFoundError), this',
       record_call (GetPassword KEY_NAME ACCOUNT) Scenario.world) /\
    _key this'
    = _key (constructor (Some (Cases.key_set Scenario.forgetful_keychain))).
Proof.
  apply (init_bails_when_key_set Scenario.host Scenario.forgetful_keychain).
  - discriminate.
  - reflexivity.
  - reflexivity.
  - reflexivity.
  - reflexivity.
Defined.

Lemma init_setPassword_fails_witness :
  exists this',
    init 1 Scenario.host
      (constructor (Some (Scenario.with_keychain Cases.readonly_keychain false)))
      Scenario.world
    = (Some (Throw Cases.SetPasswordError), this',
       provisioned Scenario.world) /\
    calls (provisioned Scenario.world)
    = (calls Scenario.world
         ++ [GetPassword KEY_NAME ACCOUNT;
             SetPassword KEY_NAME ACCOUNT (fresh_key Scenario.world)])%list /\
    _key this'
    = _key (constructor
              (Some (Scenario.with_keychain Cases.readonly_keychain false))).
Proof.
  apply (init_setPassword_fails Scenario.host Cases.readonly_keychain).
  - discriminate.
  - reflexivity.
  - reflexivity.
  - exists Scenario.PasswordNotFoundError. split; reflexivity.
  - reflexivity.
Defined.

Lemma init_without_keychain_witness :
  exists r this' w',
    init 1 Cases.bare_host (constructor None) Scenario.world
    = (Some (Throw r), this', w') /\
    calls w' = calls Scenario.world /\
    _key this' = _key (constructor None) /\
    (error_name Cases.UnsupportedOperatingSystem <> "PasswordNotFoundError" ->
     r = Cases.UnsupportedOperatingSystem /\ w' = Scenario.world).
Proof.
  apply (init_without_keychain Cases.bare_host (constructor None)
           Scenario.world Cases.UnsupportedOperatingSystem 0).
  - discriminate.
  - reflexivity.
Defined.

Lemma init_loads_store_answer_witness :
  exists this' w',
    init 2 Scenario.host
      (constructor (Some (Scenario.with_keychain Cases.preset_keychain false)))
      Scenario.world
    = (Some (Return tt), this', w') /\
    _key this'
    = Some (SecureBuffer.Populated (Buffer_from_utf8 Cases.preset)) /\
    calls w'
    = (calls Scenario.world
         ++ [GetPassword KEY_NAME ACCOUNT;
             SetPassword KEY_NAME ACCOUNT (fresh_key Scenario.world);
             GetPassword KEY_NAME ACCOUNT])%list.
Proof.
  apply (init_loads_store_answer Scenario.host Cases.preset_keychain).
  - discriminate.
  - reflexivity.
  - reflexivity.
  - exists Scenario.PasswordNotFoundError. split; reflexivity.
  - reflexivity.
  - reflexivity.
Defined.

Lemma getKeyChain_cached_witness :
  let this1 := snd (getKeyChain Scenario.host "linux" (constructor None)) in
  Options.keychain (options this1) = Some Scenario.memory_keychain /\
  getKeyChain Cases.bare_host "aix" this1
  = (Return Scenario.memory_keychain, this1).
Proof.
  apply (getKeyChain_cached Scenario.host Cases.bare_host "linux" "aix"
           (constructor None)).
  reflexivity.
Defined.

Lemma successive_nonces_witness :
  (exists rest1 rest2,
      Str Scenario.envelope = Str ("5b80a5caef14" ++ rest1) /\
      Str Cases.second_envelope = Str ("395e83a8cdf2" ++ rest2)) /\
  Str Scenario.envelope <> Str Cases.second_envelope.
Proof.
  destruct (@successive_nonces node_aes_256_gcm Scenario.crypto
              Scenario.token Scenario.token Scenario.world' _ _ _ _
              scenario_encrypt second_encrypt)
    as (Hheads & _ & Hdiffer).
  split; [exact Hheads|].
  apply Hdiffer. vm_compute. discriminate.
Defined.

Lemma refused_key_unwrapped_witness :
  fst (@encrypt node_aes_256_gcm Cases.short_keyed (Str Scenario.token)
         Scenario.world')
  = Throw (NodeError "Invalid key length") /\
  @decrypt node_aes_256_gcm Scenario.host Cases.short_keyed
    (Str Scenario.envelope)
  = Throw (NodeError "Invalid key length").
Proof.
  destruct (@refused_key_unwrapped node_aes_256_gcm Scenario.host
              Cases.short_keyed (Buffer_from_utf8 "short")
              "Invalid key length")
    as [Henc Hdec].
  - reflexivity.
  - intros iv. reflexivity.
  - split; [apply Henc | apply Hdec; reflexivity].
Defined.

Lemma decryption_error_hint_witness :
  (exists m cause,
      messages Scenario.crypto = Some m /\
      Localized "encryption" "AuthDecryptError"
        [Plain "Unsupported state or unable to authenticate data"]
      = getMessage m "AuthDecryptError" [Plain cause]) /\
  Some (Localized "crypto" "MacKeychainOutOfSync" [])
  = if (String.eqb (os_platform Cases.mac_host) "darwin"
        && negb
             (env_getBoolean Cases.mac_host "SFDX_USE_GENERIC_UNIX_KEYCHAIN"
              || env_getBoolean Cases.mac_host "USE_GENERIC_UNIX_KEYCHAIN"))%bool
    then Some (Localized "crypto" "MacKeychainOutOfSync" [])
    else None.
Proof.
  exact (@decryption_error_hint node_aes_256_gcm Cases.mac_host
           Scenario.crypto (Str Cases.bad_tag_envelope) _ _ bad_tag_refused).
Defined.

Lemma envelope_portable_witness :
  @decrypt node_aes_256_gcm Cases.mac_host Cases.transplanted
    (Str Scenario.envelope)
  = Return (Str Scenario.token).
Proof.
  apply (@envelope_portable node_aes_256_gcm Cases.mac_host Scenario.crypto
           Cases.transplanted Scenario.token Scenario.world' _
           (Str Scenario.envelope) scenario_encrypt).
  - reflexivity.
  - exact token_well_formed.
Defined.

Lemma decrypt_short_segment_witness :
  @decrypt node_aes_256_gcm Scenario.host Scenario.crypto
    (Str (Cases.accented ++ ":9e597a59c19c4e01d4f2c3056cdf24e7"))
  = match _key Scenario.crypto with
    | None => Throw TypeError
    | Some cell =>
        SecureBuffer.value cell
          (@decrypt_callback node_aes_256_gcm Scenario.host Scenario.crypto
             "9e597a59c19c4e01d4f2c3056cdf24e7" Cases.accented EmptyString)
    end.
Proof.
  apply (@decrypt_short_segment node_aes_256_gcm Scenario.host Scenario.crypto
           Cases.accented "9e597a59c19c4e01d4f2c3056cdf24e7").
  - reflexivity.
  - reflexivity.
  - vm_compute. lia.
Defined.

(** The segment of twelve accented letters is 24 bytes long and is the
    nonce as a whole: with the tag of the empty text under that nonce,
    [decrypt] returns the empty text. *)
Example accented_nonce_opens :
  String.length Cases.accented = 24 /\
  js_length Cases.accented = 12 /\
  @decrypt node_aes_256_gcm Scenario.host Scenario.crypto
    (Str (Cases.accented ++ ":9e597a59c19c4e01d4f2c3056cdf24e7"))
  = Return (Str EmptyString).
Proof. vm_compute. split_and; reflexivity. Qed.

Lemma format_error_needs_init_witness :
  @decrypt node_aes_256_gcm Scenario.host (constructor None) (Str "a:b:c")
  = Throw TypeError /\
  @decrypt node_aes_256_gcm Scenario.host
    (snd (fst (@init Cases.logger_down 1 Scenario.host (constructor None)
                 Scenario.world)))
    (Str "a:b:c")
  = Throw TypeError /\
  fails_with
    (@decrypt node_aes_256_gcm Scenario.host
       (snd (fst (@init logger_ready 1 Scenario.host (constructor None)
                    Scenario.world)))
       (Str "a:b:c"))
    "InvalidEncryptedFormatError".
Proof.
  assert (Hn : List.length (split TAG_DELIMITER "a:b:c") <> 2)
    by (vm_compute; discriminate).
  split_and.
  - exact (proj1 (@format_error_needs_init node_aes_256_gcm Scenario.host
                    logger_ready None "a:b:c" Scenario.world 0 Hn)).
  - exact (proj2 (@format_error_needs_init node_aes_256_gcm Scenario.host
                    Cases.logger_down None "a:b:c" Scenario.world 0 Hn)).
  - exact (proj2 (@format_error_needs_init node_aes_256_gcm Scenario.host
                    logger_ready None "a:b:c" Scenario.world 0 Hn)).
Defined.

Lemma provisioned_key_works_witness :
  exists this' w',
    init 2 Scenario.host (constructor None) Scenario.world
    = (Some (Return tt), this', w') /\
    forall s w2, well_formed s ->
      exists out w3,
        @encrypt node_aes_256_gcm this' (Str s) w2 = (Return (Str out), w3) /\
        @decrypt node_aes_256_gcm Scenario.host this' (Str out)
        = Return (Str s).
Proof.
  apply (@provisioned_key_works node_aes_256_gcm Scenario.host
           Scenario.memory_keychain (constructor None) Scenario.world).
  - discriminate.
  - reflexivity.
  - reflexivity.
  - exists Scenario.PasswordNotFoundError. split; reflexivity.
  - reflexivity.
  - reflexivity.
Defined.

Lemma init_after_close_witness :
  exists this' w',
    init 1 Scenario.host (snd (close Scenario.crypto)) Scenario.world'
    = (Some (Return tt), this', w') /\
    _key this' = _key Scenario.crypto /\
    @decrypt node_aes_256_gcm Scenario.host this' (Str Scenario.envelope)
    = Return (Str Scenario.token).
Proof.
  apply (@init_after_close node_aes_256_gcm Scenario.host
           Scenario.memory_keychain Scenario.crypto
           "0b30557a9fc4e90e33587da2c7ec1136" Scenario.token
           Scenario.world'
           (snd (randomBytes BYTE_COUNT_FOR_IV Scenario.world'))
           Scenario.world' (Str Scenario.envelope) 0).
  - reflexivity.
  - exact scenario_encrypt.
  - exact token_well_formed.
  - reflexivity.
  - reflexivity.
Defined.
